(** * Street Football Rotation Manager: the rotation engine of the page component

    A shallow embedding of the state and the event handlers of the [Home]
    component (the local, queue-based variant of the page), and the
    properties of the rotation it implements: the waiting queue, the match
    log and the draw trackers.

    JavaScript numbers that hold team ids, counters and the team-count input
    are integers here ([Z]); the component's three [useState] cells are the
    fields of one record, and every handler is a function from the state in
    which it was created to the state after its setters have run.  An
    execution starts from the mounted page without a stored session; the
    snapshot kept in [localStorage] is outside the model. *)

From stdpp Require Import base list strings.
From Stdlib Require Import ZArith Lia.

Open Scope Z_scope.

(** ** Data model *)

(** [result?: 'team1_win' | 'team2_win' | 'draw'] *)
Inductive MatchResult : Set := team1_win | team2_win | draw.

#[global] Instance MatchResult_eq_dec : EqDecision MatchResult.
Proof. solve_decision. Defined.

Module Match.
Record t : Set := mk
  { match_number : Z;
    team1 : Z;
    team2 : Z;
    result : option MatchResult }.
End Match.

Module DrawTracker.
Record t : Set := mk
  { team1 : Z;
    team2 : Z;
    nextToPlay : Z }.
End DrawTracker.

(** The anonymous object type of [current_match]. *)
Module CurrentMatch.
Record t : Set := mk
  { team1 : Z;
    team2 : Z }.
End CurrentMatch.

Record GameState : Set := mkGameState
  { total_teams : Z;
    current_match : option CurrentMatch.t;
    waiting_queue : list Z;
    match_history : list Match.t;
    match_counter : Z;
    draw_trackers : list DrawTracker.t }.

(** The state cells of the component: [totalTeams] is [number | ''] with
    [None] for the empty input, [gameState] and [error] are nullable. *)
Record Home : Type := mkHome
  { totalTeams : option Z;
    gameState : option GameState;
    error : option string }.

Definition initial : Home :=
  {| totalTeams := Some 8; gameState := None; error := None |}.

(** The three setters. *)
Definition setTotalTeams (v : option Z) (st : Home) : Home :=
  {| totalTeams := v; gameState := gameState st; error := error st |}.

Definition setGameState (g : option GameState) (st : Home) : Home :=
  {| totalTeams := totalTeams st; gameState := g; error := error st |}.

Definition setError (e : option string) (st : Home) : Home :=
  {| totalTeams := totalTeams st; gameState := gameState st; error := e |}.

(** ** The team-count input *)

(** [totalTeams === '' ? 3 : totalTeams] *)
Definition or3 (v : option Z) : Z :=
  match v with
  | None => 3
  | Some n => n
  end.

Section TeamInput.

(** [parseInt] of the host, [None] for [NaN]. *)
Variable parseInt : string -> option Z.

Definition handleTeamChange (value : string) (st : Home) : Home :=
  if String.eqb value EmptyString then setTotalTeams None st
  else
    match parseInt value with
    | Some num => setTotalTeams (Some num) st
    | None => st
    end.

End TeamInput.

Definition incrementTeams (st : Home) : Home :=
  let current := or3 (totalTeams st) in
  if current <? 20 then setTotalTeams (Some (current + 1)) st else st.

Definition decrementTeams (st : Home) : Home :=
  let current := or3 (totalTeams st) in
  if current >? 3 then setTotalTeams (Some (current - 1)) st else st.

(** ** The rotation *)

(** [Array.from({ length: teams }, (_, i) => i + 1)] *)
Definition array_from_succ (teams : Z) : list Z :=
  (fun i => i + 1) <$> seqZ 0 teams.

Definition startNewGame (st : Home) : Home :=
  let teams := or3 (totalTeams st) in
  if (teams <? 3) || (teams >? 20) then
    setError (Some "Please enter between 3 and 20 teams"%string) st
  else
    let initialState :=
      {| total_teams := teams;
         current_match := None;
         waiting_queue := array_from_succ teams;
         match_history := [];
         match_counter := 0;
         draw_trackers := [] |} in
    setError None (setGameState (Some initialState) st).

Definition getNextMatch (st : Home) : Home :=
  match gameState st with
  | None => st
  | Some g =>
      match waiting_queue g with
      | team1 :: team2 :: remainingQueue =>
          setError None
            (setGameState
               (Some {| total_teams := total_teams g;
                        current_match := Some (CurrentMatch.mk team1 team2);
                        waiting_queue := remainingQueue;
                        match_history := match_history g;
                        match_counter := match_counter g;
                        draw_trackers := draw_trackers g |}) st)
      | _ =>
          setError (Some "Not enough teams in queue to start a match"%string) st
      end
  end.

(** The [findIndex] predicate of [handleDrawTeamSelection]. *)
Definition same_pair (team1 team2 : Z) (dt : DrawTracker.t) : Prop :=
  (DrawTracker.team1 dt = team1 /\ DrawTracker.team2 dt = team2) \/
  (DrawTracker.team1 dt = team2 /\ DrawTracker.team2 dt = team1).

#[global] Instance same_pair_dec team1 team2 dt : Decision (same_pair team1 team2 dt).
Proof. unfold same_pair. apply _. Defined.

(** [tracker.nextToPlay = tracker.nextToPlay === tracker.team1
      ? tracker.team2 : tracker.team1] *)
Definition toggle (tracker : DrawTracker.t) : DrawTracker.t :=
  {| DrawTracker.team1 := DrawTracker.team1 tracker;
     DrawTracker.team2 := DrawTracker.team2 tracker;
     DrawTracker.nextToPlay :=
       if DrawTracker.nextToPlay tracker =? DrawTracker.team1 tracker
       then DrawTracker.team2 tracker
       else DrawTracker.team1 tracker |}.

(** [handleDrawTeamSelection] is called by [recordResult] only, after its
    null check, on the session object [g].  It pushes to, or updates an
    element of, the array [g.draw_trackers] in place; the array is shared by
    the object that [recordResult] then builds with [...gameState], so the
    store after the call is returned with the selected team.  [list_find]
    yields the index of [findIndex] together with the element read at it. *)
Definition handleDrawTeamSelection (g : GameState) (team1 team2 : Z)
  : Z * list DrawTracker.t :=
  match list_find (same_pair team1 team2) (draw_trackers g) with
  | None =>
      let lowerTeam := Z.min team1 team2 in
      let higherTeam := Z.max team1 team2 in
      (lowerTeam,
       draw_trackers g ++
         [ {| DrawTracker.team1 := lowerTeam;
              DrawTracker.team2 := higherTeam;
              DrawTracker.nextToPlay := higherTeam |} ])
  | Some (trackerIndex, tracker) =>
      let teamToPlay := DrawTracker.nextToPlay tracker in
      (teamToPlay, <[trackerIndex := toggle tracker]> (draw_trackers g))
  end.

Definition recordResult (result : MatchResult) (st : Home) : Home :=
  match gameState st with
  | None => st
  | Some g =>
      match current_match g with
      | None => st
      | Some cm =>
          let team1 := CurrentMatch.team1 cm in
          let team2 := CurrentMatch.team2 cm in
          let newMatchNumber := match_counter g + 1 in
          let match_ :=
            {| Match.match_number := newMatchNumber;
               Match.team1 := team1;
               Match.team2 := team2;
               Match.result := Some result |} in
          let newQueue := waiting_queue g in
          let '(newQueue, trackers) :=
            match result with
            | team1_win => (team1 :: newQueue ++ [team2], draw_trackers g)
            | team2_win => (team2 :: newQueue ++ [team1], draw_trackers g)
            | draw =>
                let '(firstToPlay, trackers) :=
                  handleDrawTeamSelection g team1 team2 in
                let secondToPlay :=
                  if firstToPlay =? team1 then team2 else team1 in
                (newQueue ++ [firstToPlay; secondToPlay], trackers)
            end in
          setError None
            (setGameState
               (Some {| total_teams := total_teams g;
                        current_match := None;
                        waiting_queue := newQueue;
                        match_history := match_history g ++ [match_];
                        match_counter := newMatchNumber;
                        draw_trackers := trackers |}) st)
      end
  end.

Definition endSession (st : Home) : Home :=
  setError None (setGameState None st).

(** ** Executions *)

(** The events of the page: one per handler, [TeamInput v] being what
    [handleTeamChange] stores when it stores anything. *)
Inductive action : Type :=
  | TeamInput (v : option Z)
  | IncrementTeams
  | DecrementTeams
  | StartNewGame
  | GetNextMatch
  | RecordResult (result : MatchResult)
  | EndSession.

Definition handle (a : action) (st : Home) : Home :=
  match a with
  | TeamInput v => setTotalTeams v st
  | IncrementTeams => incrementTeams st
  | DecrementTeams => decrementTeams st
  | StartNewGame => startNewGame st
  | GetNextMatch => getNextMatch st
  | RecordResult result => recordResult result st
  | EndSession => endSession st
  end.

(** The handlers called one after the other, the first of the list first. *)
Definition run (acts : list action) (st : Home) : Home :=
  foldl (fun s a => handle a s) st acts.

(** What the page offers in a state: the start form is rendered without a
    session, the result buttons when a match is on, the [Get Next Match]
    button otherwise (disabled on a short queue), [End Session] with any
    session; the [disabled] attributes of the minus and plus buttons. *)
Definition rendered (a : action) (st : Home) : bool :=
  match gameState st with
  | None =>
      match a with
      | TeamInput _ | StartNewGame => true
      | IncrementTeams =>
          negb (match totalTeams st with Some n => n >=? 20 | None => false end)
      | DecrementTeams =>
          negb (match totalTeams st with Some n => n <=? 3 | None => false end)
      | _ => false
      end
  | Some g =>
      match a, current_match g with
      | RecordResult _, Some _ => true
      | GetNextMatch, None =>
          negb (Z.of_nat (length (waiting_queue g)) <? 2)
      | EndSession, _ => true
      | _, _ => false
      end
  end.

(** The weaker discipline that the rotation needs: [getNextMatch] is not
    called while a match is on. *)
Definition idle_draw (a : action) (st : Home) : bool :=
  match a, gameState st with
  | GetNextMatch, Some g =>
      match current_match g with
      | None => true
      | Some _ => false
      end
  | _, _ => true
  end.

(** [follows G st acts]: every action of [acts], run from [st], is allowed by
    [G] in the state it is called in. *)
Fixpoint follows (G : action -> Home -> bool) (st : Home) (acts : list action)
  : bool :=
  match acts with
  | [] => true
  | a :: rest => G a st && follows G (handle a st) rest
  end.

(** ** Observations on a session *)

Definition on_pitch (g : GameState) : list Z :=
  match current_match g with
  | Some cm => [CurrentMatch.team1 cm; CurrentMatch.team2 cm]
  | None => []
  end.

(** The teams of the match, if any, followed by the queue. *)
Definition teams_of (g : GameState) : list Z :=
  on_pitch g ++ waiting_queue g.

Definition key (dt : DrawTracker.t) : Z * Z :=
  (DrawTracker.team1 dt, DrawTracker.team2 dt).

(** A record of the log is a draw between [a] and [b], in either order. *)
Definition drawn_between (a b : Z) (m : Match.t) : Prop :=
  Match.result m = Some draw /\
  ((Match.team1 m = a /\ Match.team2 m = b) \/
   (Match.team1 m = b /\ Match.team2 m = a)).

#[global] Instance drawn_between_dec a b m : Decision (drawn_between a b m).
Proof. unfold drawn_between. apply _. Defined.

(** The number of draws between [a] and [b] in a log. *)
Definition draws_of (a b : Z) (history : list Match.t) : nat :=
  length (filter (drawn_between a b) history).

(** The team that the rule puts first at a draw of the pair [{a, b}] that
    [k] draws of the pair precede: the lower one, then the higher one, and
    so on. *)
Definition turn (k : nat) (a b : Z) : Z :=
  if Nat.even k then Z.min a b else Z.max a b.

Definition other_of (a b x : Z) : Z :=
  if x =? a then b else a.

(** The new queue and the tracker store of [recordResult], by result. *)
Definition requeue (result : MatchResult) (g : GameState) (cm : CurrentMatch.t)
  : list Z * list DrawTracker.t :=
  let team1 := CurrentMatch.team1 cm in
  let team2 := CurrentMatch.team2 cm in
  match result with
  | team1_win => (team1 :: waiting_queue g ++ [team2], draw_trackers g)
  | team2_win => (team2 :: waiting_queue g ++ [team1], draw_trackers g)
  | draw =>
      let sel := handleDrawTeamSelection g team1 team2 in
      (waiting_queue g ++ [sel.1; other_of team1 team2 sel.1], sel.2)
  end.

(** ** Invariants *)

Definition tracker_ok (total : Z) (dt : DrawTracker.t) : Prop :=
  1 <= DrawTracker.team1 dt /\
  DrawTracker.team1 dt < DrawTracker.team2 dt /\
  DrawTracker.team2 dt <= total /\
  (DrawTracker.nextToPlay dt = DrawTracker.team1 dt \/
   DrawTracker.nextToPlay dt = DrawTracker.team2 dt).

(** The tracker of a pair [a < b] is a function of the number of draws of
    the pair in the log: none before the first one, then the one whose
    [nextToPlay] is the team of the next turn. *)
Definition tracks (trackers : list DrawTracker.t) (history : list Match.t)
  : Prop :=
  forall a b, a < b ->
    match list_find (same_pair a b) trackers with
    | None => draws_of a b history = 0%nat
    | Some (_, dt) =>
        draws_of a b history <> 0%nat /\
        dt = DrawTracker.mk a b (turn (draws_of a b history) a b)
    end.

Record session_ok (g : GameState) : Prop := mk_session_ok
  { ok_nodup : NoDup (teams_of g);
    ok_range : Forall (fun t => 1 <= t <= total_teams g) (teams_of g);
    ok_counter : match_counter g = Z.of_nat (length (match_history g));
    ok_numbers :
      Match.match_number <$> match_history g = seqZ 1 (match_counter g);
    ok_trackers : Forall (tracker_ok (total_teams g)) (draw_trackers g);
    ok_keys : NoDup (key <$> draw_trackers g);
    ok_tracks : tracks (draw_trackers g) (match_history g) }.

Definition home_ok (st : Home) : Prop :=
  forall g, gameState st = Some g -> session_ok g.

(** The queue and the match hold every team of the session. *)
Definition complete (g : GameState) : Prop :=
  teams_of g ≡ₚ seqZ 1 (total_teams g).

Definition home_complete (st : Home) : Prop :=
  forall g, gameState st = Some g -> complete g.

(** ** Matches in a row *)

(** A record of the log as [recordResult] writes it in a session of [total]
    teams. *)
Definition record_ok (total : Z) (m : Match.t) : Prop :=
  Match.team1 m <> Match.team2 m /\
  1 <= Match.team1 m <= total /\
  1 <= Match.team2 m <= total /\
  Match.result m <> None.

Definition home_logged (st : Home) : Prop :=
  forall g, gameState st = Some g ->
    Forall (record_ok (total_teams g)) (match_history g).

Definition home_ranged (st : Home) : Prop :=
  forall g, gameState st = Some g -> 3 <= total_teams g <= 20.

(** [plays_within t results st]: team [t] is on the pitch in one of the
    matches that are drawn when, from [st], a match is drawn and the next
    result of [results] recorded, one after the other. *)
Fixpoint plays_within (t : Z) (results : list MatchResult) (st : Home) : bool :=
  match results with
  | [] => false
  | result :: rest =>
      match gameState (getNextMatch st) with
      | Some g => bool_decide (t ∈ on_pitch g)
      | None => false
      end
      || plays_within t rest (recordResult result (getNextMatch st))
  end.

(** The unordered pairs of the teams [1, ..., n], lower team first. *)
Fixpoint pairs_below (n : nat) : list (Z * Z) :=
  match n with
  | O => []
  | S m =>
      pairs_below m ++ ((fun a => (a, Z.of_nat (S m))) <$> seqZ 1 (Z.of_nat m))
  end.

(** ** The view *)

(** [gameState.waiting_queue.map((team, index) => ...)]: the team of each
    badge of the waiting queue, and whether it has the ring and the marker
    of the next teams to play, [index < 2]. *)
Definition queue_badges (g : GameState) : list (Z * bool) :=
  imap (fun index team => (team, Nat.ltb index 2)) (waiting_queue g).

(** A row of the match history card: its React key and match number, the
    two teams, each with whether it is set in bold as the winner, and the
    label of the result. *)
Module HistoryRow.
Record t : Set := mk
  { key : Z;
    team1 : Z;
    team1_bold : bool;
    team2 : Z;
    team2_bold : bool;
    label : string }.
End HistoryRow.

(** [match.result === 'draw' ? 'Draw'
      : match.result === 'team1_win' ? 'T1 Win' : 'T2 Win'] *)
Definition result_label (result : option MatchResult) : string :=
  if decide (result = Some draw) then "Draw"%string
  else if decide (result = Some team1_win) then "T1 Win"%string
  else "T2 Win"%string.

(** [[...gameState.match_history].reverse().map((match) => ...)] *)
Definition history_rows (g : GameState) : list HistoryRow.t :=
  (fun m =>
     {| HistoryRow.key := Match.match_number m;
        HistoryRow.team1 := Match.team1 m;
        HistoryRow.team1_bold := bool_decide (Match.result m = Some team1_win);
        HistoryRow.team2 := Match.team2 m;
        HistoryRow.team2_bold := bool_decide (Match.result m = Some team2_win);
        HistoryRow.label := result_label (Match.result m) |})
    <$> reverse (match_history g).

(** ** The background slideshow *)

Module BackgroundSlideshow.

(** The updater of the timer, [(prevIndex) => (prevIndex + 1) % images.length]. *)
Definition next_index (images_length prevIndex : Z) : Z :=
  Z.rem (prevIndex + 1) images_length.

(** [currentIndex] once the timer has fired [ticks] times; the effect sets
    no timer for an empty list of images. *)
Definition currentIndex_after (images_length : Z) (ticks : nat) : Z :=
  if images_length =? 0 then 0
  else Nat.iter ticks (next_index images_length) 0.

(** The indices of the images rendered with [opacity-100],
    [index === currentIndex]. *)
Definition opaque_indices (images_length currentIndex : Z) : list Z :=
  filter (fun index => index = currentIndex) (seqZ 0 images_length).

End BackgroundSlideshow.

(** ** A first run *)

Example run_example :
  waiting_queue <$> gameState
    (run [TeamInput (Some 4); StartNewGame; GetNextMatch; RecordResult team1_win] initial)
  = Some [1; 3; 4; 2].
Proof. reflexivity. Qed.

(** ** The range check of [startNewGame] *)

Lemma range_check_refuses teams :
  teams < 3 \/ 20 < teams -> (teams <? 3) || (teams >? 20) = true.
Proof. intros. apply orb_true_iff. lia. Qed.

Lemma range_check_accepts teams :
  3 <= teams <= 20 -> (teams <? 3) || (teams >? 20) = false.
Proof. intros. apply orb_false_iff. lia. Qed.

(** ** Lists *)

Lemma array_from_succ_seqZ teams : array_from_succ teams = seqZ 1 teams.
Proof.
  unfold array_from_succ. rewrite <- (fmap_add_seqZ 1 0).
  apply list_fmap_ext. intros; lia.
Qed.

Section Find.

Context {A : Type} (P : A -> Prop) `{!forall x, Decision (P x)}.

Lemma find_insert_found (l : list A) i x y :
  list_find P l = Some (i, x) -> P y ->
  list_find P (<[i := y]> l) = Some (i, y).
Proof.
  intros (Hl & _ & Hmin)%list_find_Some Hy. apply list_find_Some.
  split_and!; [|done|].
  - rewrite list_lookup_insert_eq; eauto using lookup_lt_Some.
  - intros j z Hj Hlt. rewrite list_lookup_insert_ne in Hj by lia. eauto.
Qed.

Lemma find_insert_skipped (l : list A) i x y :
  l !! i = Some x -> ~ P x -> ~ P y ->
  list_find P (<[i := y]> l) = list_find P l.
Proof.
  revert i. induction l as [|z l IH]; intros [|i] Hl Hx Hy; simplify_eq/=.
  - rewrite !decide_False by done. done.
  - case_decide; [done|]. by rewrite (IH i).
Qed.

Lemma find_snoc_found (l : list A) y :
  list_find P l = None -> P y ->
  list_find P (l ++ [y]) = Some (length l, y).
Proof.
  intros Hl Hy. rewrite list_find_app_r by done. simpl.
  rewrite decide_True by done. simpl. do 2 f_equal.
Qed.

Lemma find_snoc_skipped (l : list A) y :
  ~ P y -> list_find P (l ++ [y]) = list_find P l.
Proof.
  intros Hy. destruct (list_find P l) as [[i x]|] eqn:Hl.
  - by apply list_find_app_l.
  - rewrite list_find_app_r by done. simpl. by rewrite decide_False.
Qed.

End Find.

(** ** Pairs, draw counts and turns *)

(** Decides every [=?] test of the goal. *)
Ltac case_eqb :=
  repeat match goal with
         | |- context [?x =? ?y] => destruct (Z.eqb_spec x y)
         end.

Lemma same_pair_min_max t1 t2 dt :
  same_pair (Z.min t1 t2) (Z.max t1 t2) dt <-> same_pair t1 t2 dt.
Proof.
  unfold same_pair.
  destruct (Z.le_ge_cases t1 t2);
    [rewrite Z.min_l, Z.max_r by lia | rewrite Z.min_r, Z.max_l by lia]; tauto.
Qed.

Lemma same_pair_key t1 t2 dt :
  DrawTracker.team1 dt < DrawTracker.team2 dt ->
  same_pair t1 t2 dt -> key dt = (Z.min t1 t2, Z.max t1 t2).
Proof. unfold same_pair, key. intros ? [[<- <-]|[<- <-]]; f_equal; lia. Qed.

Lemma same_pair_of_key t1 t2 dt :
  key dt = (Z.min t1 t2, Z.max t1 t2) -> same_pair t1 t2 dt.
Proof.
  unfold same_pair, key. intros [= -> ->].
  destruct (Z.le_ge_cases t1 t2); lia.
Qed.

Lemma find_min_max t1 t2 (l : list DrawTracker.t) :
  list_find (same_pair (Z.min t1 t2) (Z.max t1 t2)) l
  = list_find (same_pair t1 t2) l.
Proof. apply list_find_ext, same_pair_min_max. Qed.

Lemma drawn_between_min_max t1 t2 m :
  drawn_between (Z.min t1 t2) (Z.max t1 t2) m <-> drawn_between t1 t2 m.
Proof.
  unfold drawn_between.
  destruct (Z.le_ge_cases t1 t2);
    [rewrite Z.min_l, Z.max_r by lia | rewrite Z.min_r, Z.max_l by lia]; tauto.
Qed.

Lemma draws_of_min_max t1 t2 history :
  draws_of (Z.min t1 t2) (Z.max t1 t2) history = draws_of t1 t2 history.
Proof.
  unfold draws_of. f_equal. apply list_filter_iff, drawn_between_min_max.
Qed.

Lemma draws_of_snoc a b history m :
  draws_of a b (history ++ [m])
  = (draws_of a b history + (if decide (drawn_between a b m) then 1 else 0))%nat.
Proof.
  unfold draws_of. rewrite filter_app, length_app. f_equal.
  rewrite filter_cons, filter_nil. by case_decide.
Qed.

Lemma turn_min_max k t1 t2 : turn k (Z.min t1 t2) (Z.max t1 t2) = turn k t1 t2.
Proof. unfold turn. destruct (Nat.even k); lia. Qed.

Lemma turn_ordered k a b : a < b -> turn k a b = if Nat.even k then a else b.
Proof. unfold turn. intros. destruct (Nat.even k); lia. Qed.

Lemma turn_succ k t1 t2 :
  turn (S k) t1 t2 = other_of (Z.min t1 t2) (Z.max t1 t2) (turn k t1 t2).
Proof.
  unfold turn, other_of. rewrite Nat.even_succ, <- Nat.negb_even.
  destruct (Nat.even k); simpl.
  - by rewrite Z.eqb_refl.
  - destruct (Z.eqb_spec (Z.max t1 t2) (Z.min t1 t2)); lia.
Qed.

Lemma turn_cases k t1 t2 : turn k t1 t2 = t1 \/ turn k t1 t2 = t2.
Proof. unfold turn. destruct (Nat.even k); lia. Qed.

Lemma other_of_turn k t1 t2 :
  t1 <> t2 -> other_of t1 t2 (turn k t1 t2) = turn (S k) t1 t2.
Proof.
  intros. rewrite turn_succ. unfold turn, other_of.
  destruct (Nat.even k);
    case_eqb; lia.
Qed.

Lemma toggle_turn k a b :
  a < b ->
  toggle (DrawTracker.mk a b (turn k a b)) = DrawTracker.mk a b (turn (S k) a b).
Proof.
  intros. unfold toggle; simpl. f_equal.
  rewrite turn_succ, !turn_ordered by done. unfold other_of.
  rewrite Z.min_l, Z.max_r by lia.
  destruct (Nat.even k);
    case_eqb; lia.
Qed.

(** Two increasing pairs that one tracker matches are the same pair. *)
Lemma same_pair_ordered a b a' b' dt :
  a < b -> a' < b' -> same_pair a b dt -> same_pair a' b' dt ->
  a' = a /\ b' = b.
Proof. unfold same_pair. lia. Qed.

Lemma drawn_between_ordered a b t1 t2 n :
  a < b ->
  drawn_between a b (Match.mk n t1 t2 (Some draw)) ->
  a = Z.min t1 t2 /\ b = Z.max t1 t2.
Proof. unfold drawn_between; simpl. lia. Qed.

Lemma drawn_between_self t1 t2 n :
  drawn_between (Z.min t1 t2) (Z.max t1 t2) (Match.mk n t1 t2 (Some draw)).
Proof. apply drawn_between_min_max. unfold drawn_between; simpl. tauto. Qed.

Lemma same_pair_toggle a b dt : same_pair a b (toggle dt) <-> same_pair a b dt.
Proof. done. Qed.

Lemma tracker_ok_toggle total dt : tracker_ok total dt -> tracker_ok total (toggle dt).
Proof.
  unfold tracker_ok, toggle; simpl. intros (? & ? & ? & ?).
  split_and!; [done..|]. case_match; auto.
Qed.

(** ** The draw rule *)

(** What [handleDrawTeamSelection] returns and leaves in the store, in a
    session that satisfies the invariant, for two distinct teams of it. *)
Lemma handleDrawTeamSelection_sound g t1 t2 :
  session_ok g -> t1 <> t2 ->
  1 <= t1 <= total_teams g -> 1 <= t2 <= total_teams g ->
  (handleDrawTeamSelection g t1 t2).1
    = turn (draws_of t1 t2 (match_history g)) t1 t2 /\
  Forall (tracker_ok (total_teams g)) (handleDrawTeamSelection g t1 t2).2 /\
  NoDup (key <$> (handleDrawTeamSelection g t1 t2).2) /\
  forall n,
    tracks (handleDrawTeamSelection g t1 t2).2
      (match_history g ++ [Match.mk n t1 t2 (Some draw)]).
Proof.
  intros Hok Hne Ht1 Ht2.
  assert (Hab : Z.min t1 t2 < Z.max t1 t2) by lia.
  pose proof (ok_tracks _ Hok _ _ Hab) as Hpair.
  rewrite find_min_max, draws_of_min_max in Hpair.
  unfold handleDrawTeamSelection.
  destruct (list_find (same_pair t1 t2) (draw_trackers g)) as [[i dt]|] eqn:Hfind;
    simpl.
  - destruct Hpair as [Hk Hdt].
    pose proof Hfind as (Hi & Hsame & _)%list_find_Some.
    split_and!.
    + rewrite Hdt; simpl. apply turn_min_max.
    + apply Forall_insert; [apply Hok|].
      apply tracker_ok_toggle. eapply Forall_lookup_1; [apply Hok|done].
    + rewrite list_fmap_insert, list_insert_id; [apply Hok|].
      by rewrite list_lookup_fmap, Hi.
    + intros n a b Hlt.
      destruct (decide (a = Z.min t1 t2 /\ b = Z.max t1 t2)) as [[-> ->]|Hother].
      * rewrite find_min_max, (find_insert_found _ _ _ _ _ Hfind) by done.
        rewrite draws_of_snoc, decide_True by apply drawn_between_self.
        rewrite draws_of_min_max, Nat.add_1_r.
        split; [done|]. rewrite Hdt. by apply toggle_turn.
      * rewrite (find_insert_skipped _ _ _ _ _ Hi).
        -- rewrite draws_of_snoc, decide_False, Nat.add_0_r;
             [by apply Hok|].
           intros Hd%drawn_between_ordered; done.
        -- intros Hsame'. apply Hother.
           apply (same_pair_ordered _ _ _ _ dt); try done.
           by apply same_pair_min_max.
        -- intros Hsame'. apply Hother.
           apply (same_pair_ordered _ _ _ _ dt); try done.
           by apply same_pair_min_max.
  - pose proof Hfind as Hnone. rewrite list_find_None in Hnone.
    set (new := DrawTracker.mk (Z.min t1 t2) (Z.max t1 t2) (Z.max t1 t2)).
    assert (Hnew : same_pair (Z.min t1 t2) (Z.max t1 t2) new)
      by (left; done).
    split_and!.
    + by rewrite Hpair.
    + apply Forall_app. split; [apply Hok|].
      apply Forall_singleton. unfold tracker_ok; simpl. lia.
    + rewrite fmap_app. apply NoDup_app. split_and!; [apply Hok| |apply NoDup_singleton].
      intros k (dt & -> & Hin)%list_elem_of_fmap Hk%list_elem_of_singleton.
      rewrite Forall_forall in Hnone. apply (Hnone dt Hin).
      by apply same_pair_of_key.
    + intros n a b Hlt.
      destruct (decide (a = Z.min t1 t2 /\ b = Z.max t1 t2)) as [[-> ->]|Hother].
      * rewrite (find_snoc_found _ _ new); [|by rewrite find_min_max|done].
        rewrite draws_of_snoc, decide_True by apply drawn_between_self.
        rewrite draws_of_min_max, Hpair. simpl. split; [done|].
        unfold new. f_equal. rewrite turn_ordered by done. done.
      * rewrite find_snoc_skipped.
        -- rewrite draws_of_snoc, decide_False, Nat.add_0_r;
             [by apply Hok|].
           intros Hd%drawn_between_ordered; done.
        -- intros Hsame'. apply Hother.
           by apply (same_pair_ordered _ _ _ _ new).
Qed.

(** ** The invariant is kept by every handler *)

Lemma tracks_not_drawn trackers history m :
  Match.result m <> Some draw ->
  tracks trackers history -> tracks trackers (history ++ [m]).
Proof.
  intros Hm Ht a b Hab. specialize (Ht a b Hab).
  rewrite draws_of_snoc, decide_False, Nat.add_0_r; [done|].
  by intros [? _].
Qed.

Lemma numbers_snoc (history : list Match.t) counter m :
  counter = Z.of_nat (length history) ->
  Match.match_number <$> history = seqZ 1 counter ->
  Match.match_number m = counter + 1 ->
  Match.match_number <$> (history ++ [m]) = seqZ 1 (counter + 1).
Proof.
  intros Hc Hn Hm. rewrite fmap_app, Hn, seqZ_app by lia. f_equal.
  simpl. rewrite Hm, seqZ_cons, seqZ_nil by lia. f_equal. lia.
Qed.

Lemma session_ok_initial teams :
  session_ok
    {| total_teams := teams;
       current_match := None;
       waiting_queue := array_from_succ teams;
       match_history := [];
       match_counter := 0;
       draw_trackers := [] |}.
Proof.
  split; simpl; rewrite ?array_from_succ_seqZ.
  - apply NoDup_seqZ.
  - apply Forall_seqZ. lia.
  - done.
  - done.
  - done.
  - apply NoDup_nil_2.
  - intros a b _. done.
Qed.

Lemma startNewGame_ok st : home_ok st -> home_ok (startNewGame st).
Proof.
  unfold startNewGame, home_ok. intros Hst g.
  case_match; simpl; [apply Hst|].
  intros [= <-]. apply session_ok_initial.
Qed.

Lemma getNextMatch_ok st : home_ok st -> home_ok (getNextMatch st).
Proof.
  unfold getNextMatch, home_ok. intros Hst g'.
  destruct (gameState st) as [g|] eqn:Hg; [|by rewrite Hg].
  specialize (Hst g eq_refl).
  destruct (waiting_queue g) as [|t1 [|t2 rest]] eqn:Hq; simpl;
    try (rewrite Hg; intros [= <-]; done).
  intros [= <-]. destruct Hst as [Hnd Hrg Hc Hn Htr Hk Hts].
  unfold teams_of in Hnd, Hrg. rewrite Hq in Hnd, Hrg.
  apply NoDup_app in Hnd as (_ & _ & Hnd).
  apply Forall_app in Hrg as [_ Hrg].
  split; done.
Qed.

(** The teams of a match in progress are two distinct teams of the session. *)
Lemma match_teams g cm :
  session_ok g -> current_match g = Some cm ->
  CurrentMatch.team1 cm <> CurrentMatch.team2 cm /\
  1 <= CurrentMatch.team1 cm <= total_teams g /\
  1 <= CurrentMatch.team2 cm <= total_teams g.
Proof.
  intros [Hnd Hrg _ _ _ _ _] Hcm.
  unfold teams_of, on_pitch in Hnd, Hrg. rewrite Hcm in Hnd, Hrg. simpl in *.
  apply NoDup_cons in Hnd as [Hnot _].
  apply Forall_cons in Hrg as [? [? _]%Forall_cons].
  split_and!; try lia. intros Heq. apply Hnot. rewrite Heq. left.
Qed.

Lemma recordResult_session result st g cm :
  gameState st = Some g -> current_match g = Some cm ->
  recordResult result st
  = setError None
      (setGameState
         (Some {| total_teams := total_teams g;
                  current_match := None;
                  waiting_queue := (requeue result g cm).1;
                  match_history :=
                    match_history g ++
                      [Match.mk (match_counter g + 1) (CurrentMatch.team1 cm)
                         (CurrentMatch.team2 cm) (Some result)];
                  match_counter := match_counter g + 1;
                  draw_trackers := (requeue result g cm).2 |}) st).
Proof.
  intros Hg Hcm. unfold recordResult, requeue. rewrite Hg, Hcm.
  destruct result; try done.
  by destruct (handleDrawTeamSelection g _ _).
Qed.

(** The queue that [recordResult] leaves is the old queue with the two
    teams of the match put back, in some order and at some end. *)
Lemma requeue_teams result g cm :
  session_ok g -> current_match g = Some cm ->
  (requeue result g cm).1 ≡ₚ teams_of g.
Proof.
  intros Hok Hcm.
  destruct (match_teams g cm Hok Hcm) as (Hne & Hr1 & Hr2).
  unfold teams_of, on_pitch. rewrite Hcm.
  destruct result; simpl.
  - by rewrite (Permutation_app_comm _ [_]).
  - rewrite (Permutation_app_comm _ [_]). simpl. apply perm_swap.
  - pose proof (handleDrawTeamSelection_sound g _ _ Hok Hne Hr1 Hr2) as [-> _].
    rewrite (Permutation_app_comm _ [_; _]). simpl.
    rewrite other_of_turn by done.
    unfold turn. rewrite Nat.even_succ, <- Nat.negb_even.
    destruct (Nat.even _), (Z.le_ge_cases (CurrentMatch.team1 cm) (CurrentMatch.team2 cm));
      simpl; rewrite ?Z.min_l, ?Z.max_r, ?Z.min_r, ?Z.max_l by lia;
      done || apply perm_swap.
Qed.

Lemma requeue_trackers result g cm n :
  session_ok g -> current_match g = Some cm ->
  Forall (tracker_ok (total_teams g)) (requeue result g cm).2 /\
  NoDup (key <$> (requeue result g cm).2) /\
  tracks (requeue result g cm).2
    (match_history g ++
       [Match.mk n (CurrentMatch.team1 cm) (CurrentMatch.team2 cm) (Some result)]).
Proof.
  intros Hok Hcm.
  destruct (match_teams g cm Hok Hcm) as (Hne & Hr1 & Hr2).
  destruct result; simpl.
  - split_and!; [apply Hok..|]. apply tracks_not_drawn; [done|apply Hok].
  - split_and!; [apply Hok..|]. apply tracks_not_drawn; [done|apply Hok].
  - pose proof (handleDrawTeamSelection_sound g _ _ Hok Hne Hr1 Hr2)
      as (_ & ? & ? & ?). done.
Qed.

Lemma recordResult_ok result st : home_ok st -> home_ok (recordResult result st).
Proof.
  intros Hst g'.
  destruct (gameState st) as [g|] eqn:Hg;
    [|unfold recordResult; rewrite Hg; by rewrite Hg].
  pose proof (Hst g Hg) as Hok.
  destruct (current_match g) as [cm|] eqn:Hcm;
    [|unfold recordResult; rewrite Hg, Hcm; apply Hst].
  rewrite (recordResult_session _ _ _ _ Hg Hcm). simpl. intros [= <-].
  destruct (requeue_trackers result g cm (match_counter g + 1) Hok Hcm)
    as (Htr & Hk & Hts).
  pose proof (requeue_teams result g cm Hok Hcm) as Hperm.
  split; simpl; try done.
  - unfold teams_of, on_pitch; simpl. rewrite Hperm. apply Hok.
  - unfold teams_of, on_pitch; simpl. rewrite Hperm. apply Hok.
  - rewrite length_app, (ok_counter _ Hok). simpl. lia.
  - apply numbers_snoc; [apply Hok..|done].
Qed.

Lemma handle_ok a st : home_ok st -> home_ok (handle a st).
Proof.
  destruct a; simpl;
    auto using startNewGame_ok, getNextMatch_ok, recordResult_ok.
  - unfold incrementTeams. by case_match.
  - unfold decrementTeams. by case_match.
  - intros _ g. done.
Qed.

Lemma run_ok acts st : home_ok st -> home_ok (run acts st).
Proof.
  revert st. induction acts as [|a acts IH]; intros st Hst; [done|].
  apply IH, handle_ok, Hst.
Qed.

Lemma initial_ok : home_ok initial.
Proof. intros g. done. Qed.

(** Every session of an execution satisfies the invariant. *)
Lemma reachable_ok acts g :
  gameState (run acts initial) = Some g -> session_ok g.
Proof. apply run_ok, initial_ok. Qed.

(** ** Every team is in the queue or on the pitch *)

Lemma follows_weaken (G G' : action -> Home -> bool) st acts :
  (forall a s, G a s = true -> G' a s = true) ->
  follows G st acts = true -> follows G' st acts = true.
Proof.
  intros HG. revert st. induction acts as [|a acts IH]; intros st; simpl; [done|].
  intros [? ?]%andb_true_iff. apply andb_true_iff. auto.
Qed.

Lemma rendered_idle_draw a st : rendered a st = true -> idle_draw a st = true.
Proof.
  unfold rendered, idle_draw.
  destruct a, (gameState st) as [g|]; try done.
  by destruct (current_match g).
Qed.

Lemma getNextMatch_complete st :
  idle_draw GetNextMatch st = true ->
  home_complete st -> home_complete (getNextMatch st).
Proof.
  unfold idle_draw, getNextMatch, home_complete. intros Hidle Hst g'.
  destruct (gameState st) as [g|] eqn:Hg; [|by rewrite Hg].
  specialize (Hst g eq_refl).
  destruct (waiting_queue g) as [|t1 [|t2 rest]] eqn:Hq; simpl;
    try (rewrite Hg; by intros [= <-]).
  intros [= <-]. unfold complete, teams_of, on_pitch in *. simpl.
  destruct (current_match g); [done|]. by rewrite Hq in Hst.
Qed.

Lemma recordResult_complete result st :
  home_ok st -> home_complete st -> home_complete (recordResult result st).
Proof.
  intros Hok Hst g'.
  destruct (gameState st) as [g|] eqn:Hg;
    [|unfold recordResult; rewrite Hg; by rewrite Hg].
  destruct (current_match g) as [cm|] eqn:Hcm;
    [|unfold recordResult; rewrite Hg, Hcm; apply Hst].
  rewrite (recordResult_session _ _ _ _ Hg Hcm). simpl. intros [= <-].
  unfold complete, teams_of at 1, on_pitch; simpl.
  rewrite requeue_teams by auto. by apply Hst.
Qed.

Lemma handle_complete a st :
  idle_draw a st = true ->
  home_ok st -> home_complete st -> home_complete (handle a st).
Proof.
  destruct a; simpl;
    auto using getNextMatch_complete, recordResult_complete.
  - unfold incrementTeams. by case_match.
  - unfold decrementTeams. by case_match.
  - unfold startNewGame, home_complete. intros _ _ Hst g.
    case_match; simpl; [apply Hst|].
    intros [= <-]. unfold complete, teams_of; simpl.
    by rewrite array_from_succ_seqZ.
  - intros _ _ _ g. done.
Qed.

Lemma run_complete acts st :
  follows idle_draw st acts = true ->
  home_ok st -> home_complete st -> home_complete (run acts st).
Proof.
  revert st. induction acts as [|a acts IH]; intros st; simpl; [done|].
  intros [? ?]%andb_true_iff ? ?.
  apply IH; auto using handle_ok, handle_complete.
Qed.

(** * The properties of the rotation *)

(** ** Coverage of the team set *)

(** C1, as amended: after any sequence of handler calls from the mounted
    page in which [getNextMatch] is never called while a match is in
    progress, the teams of [current_match] (when present) followed by
    [waiting_queue] are a permutation of [1, ..., total_teams]: every team
    once, no duplicates, no overlap. *)
Theorem queue_and_match_hold_every_team acts g :
  follows idle_draw initial acts = true ->
  gameState (run acts initial) = Some g ->
  teams_of g ≡ₚ seqZ 1 (total_teams g) /\
  NoDup (teams_of g) /\
  (forall t, t ∈ teams_of g <-> 1 <= t <= total_teams g).
Proof.
  intros Hacts Hg.
  assert (Hperm : teams_of g ≡ₚ seqZ 1 (total_teams g)).
  { apply (run_complete acts initial Hacts initial_ok); [|done]. intros g0. done. }
  split_and!; [done| |].
  - rewrite Hperm. apply NoDup_seqZ.
  - intros t. rewrite Hperm, elem_of_seqZ. lia.
Qed.

Lemma queue_and_match_hold_every_team_witness :
  let acts :=
    [TeamInput (Some 4); StartNewGame; GetNextMatch; RecordResult draw;
     GetNextMatch] in
  let g :=
    {| total_teams := 4;
       current_match := Some (CurrentMatch.mk 3 4);
       waiting_queue := [1; 2];
       match_history := [Match.mk 1 1 2 (Some draw)];
       match_counter := 1;
       draw_trackers := [DrawTracker.mk 1 2 2] |} in
  follows idle_draw initial acts = true /\
  gameState (run acts initial) = Some g /\
  teams_of g ≡ₚ seqZ 1 (total_teams g) /\
  NoDup (teams_of g) /\
  (forall t, t ∈ teams_of g <-> 1 <= t <= total_teams g).
Proof.
  intros acts g.
  split; [reflexivity|]. split; [reflexivity|].
  apply (queue_and_match_hold_every_team acts g); reflexivity.
Defined.

(** C1, as stated, fails: [getNextMatch] has no guard on [current_match], so
    a second call in a row replaces the match and its two teams are in
    neither the queue nor the match. *)
Lemma second_draw_drops_the_match :
  exists g,
    gameState (run [StartNewGame; GetNextMatch; GetNextMatch] initial) = Some g /\
    total_teams g = 8 /\
    on_pitch g = [3; 4] /\
    waiting_queue g = [5; 6; 7; 8] /\
    ~ teams_of g ≡ₚ seqZ 1 (total_teams g).
Proof.
  eexists. split_and!; [reflexivity..|].
  intros Hperm%Permutation_length. vm_compute in Hperm. discriminate.
Qed.

(** ** The draw rule *)

(** In a session that satisfies the invariant, a tracker that matches a pair
    is the one that [findIndex] finds. *)
Lemma find_tracker g t1 t2 i dt :
  session_ok g ->
  draw_trackers g !! i = Some dt -> same_pair t1 t2 dt ->
  list_find (same_pair t1 t2) (draw_trackers g) = Some (i, dt).
Proof.
  intros Hok Hi Hdt. apply list_find_Some. split_and!; [done..|].
  intros j y Hj Hlt Hy.
  assert (Hcan : forall k x, draw_trackers g !! k = Some x ->
                   DrawTracker.team1 x < DrawTracker.team2 x).
  { intros k x Hk.
    by destruct (Forall_lookup_1 _ _ _ _ (ok_trackers _ Hok) Hk) as (_ & ? & _). }
  assert (j = i); [|lia].
  apply (NoDup_lookup _ _ _ (key dt) (ok_keys _ Hok)).
  - rewrite list_lookup_fmap, Hj. simpl. f_equal.
    rewrite (same_pair_key t1 t2 y), (same_pair_key t1 t2 dt); eauto.
  - by rewrite list_lookup_fmap, Hi.
Qed.

(** C2: when a draw is recorded for the current pair in a session of an
    execution, then, if no tracker matches the unordered pair, the lower
    team is appended to the queue first and the higher one second, and a
    tracker of the pair whose [nextToPlay] is the higher team is added; if
    a tracker matches it, its [nextToPlay] is appended first and the other
    team of the pair second, and the tracker's [nextToPlay] becomes that
    other team. *)
Theorem draw_requeues_by_tracker acts g cm :
  gameState (run acts initial) = Some g ->
  current_match g = Some cm ->
  let team1 := CurrentMatch.team1 cm in
  let team2 := CurrentMatch.team2 cm in
  exists g',
    gameState (recordResult draw (run acts initial)) = Some g' /\
    ((forall dt, dt ∈ draw_trackers g -> ~ same_pair team1 team2 dt) ->
     waiting_queue g'
       = waiting_queue g ++ [Z.min team1 team2; Z.max team1 team2] /\
     draw_trackers g'
       = draw_trackers g ++
           [DrawTracker.mk (Z.min team1 team2) (Z.max team1 team2)
              (Z.max team1 team2)]) /\
    (forall i dt,
       draw_trackers g !! i = Some dt -> same_pair team1 team2 dt ->
       exists other,
         (DrawTracker.nextToPlay dt = team1 /\ other = team2 \/
          DrawTracker.nextToPlay dt = team2 /\ other = team1) /\
         waiting_queue g'
           = waiting_queue g ++ [DrawTracker.nextToPlay dt; other] /\
         draw_trackers g'
           = <[i := DrawTracker.mk (DrawTracker.team1 dt)
                      (DrawTracker.team2 dt) other]> (draw_trackers g)).
Proof.
  intros Hg Hcm team1 team2.
  pose proof (reachable_ok _ _ Hg) as Hok.
  destruct (match_teams g cm Hok Hcm) as (Hne & _ & _).
  rewrite (recordResult_session _ _ _ _ Hg Hcm). simpl.
  eexists. split; [done|]. simpl.
  unfold handleDrawTeamSelection. fold team1 team2. split.
  - intros Hnone.
    assert (list_find (same_pair team1 team2) (draw_trackers g) = None) as ->.
    { apply list_find_None, Forall_forall. done. }
    simpl. unfold other_of.
    destruct (Z.eqb_spec (Z.min team1 team2) team1); split; try done;
      do 3 f_equal; lia.
  - intros i dt Hi Hdt. rewrite (find_tracker g team1 team2 i dt Hok Hi Hdt).
    simpl.
    destruct (Forall_lookup_1 _ _ _ _ (ok_trackers _ Hok) Hi) as (_ & Hlt & _ & Hnext).
    exists (other_of team1 team2 (DrawTracker.nextToPlay dt)).
    assert (Hkey : other_of team1 team2 (DrawTracker.nextToPlay dt)
                   = DrawTracker.nextToPlay (toggle dt)).
    { unfold other_of, toggle; simpl. unfold same_pair in Hdt.
      case_eqb; lia. }
    split_and!; [|done|by rewrite Hkey].
    unfold other_of, same_pair in *.
    destruct (Z.eqb_spec (DrawTracker.nextToPlay dt) team1); lia.
Qed.

(** Three teams: 1 and 2 draw, then meet again as match (2, 1) two matches
    later and draw again. *)
Lemma draw_requeues_by_tracker_witness :
  let acts :=
    [TeamInput (Some 3); StartNewGame; GetNextMatch; RecordResult draw;
     GetNextMatch; RecordResult team1_win; GetNextMatch;
     RecordResult team2_win; GetNextMatch] in
  let g :=
    {| total_teams := 3;
       current_match := Some (CurrentMatch.mk 2 1);
       waiting_queue := [3];
       match_history :=
         [Match.mk 1 1 2 (Some draw); Match.mk 2 3 1 (Some team1_win);
          Match.mk 3 3 2 (Some team2_win)];
       match_counter := 3;
       draw_trackers := [DrawTracker.mk 1 2 2] |} in
  gameState (run acts initial) = Some g /\
  current_match g = Some (CurrentMatch.mk 2 1) /\
  exists g',
    gameState (recordResult draw (run acts initial)) = Some g' /\
    waiting_queue g' = [3; 2; 1] /\
    draw_trackers g' = [DrawTracker.mk 1 2 1].
Proof.
  intros acts g. split; [reflexivity|]. split; [reflexivity|].
  destruct (draw_requeues_by_tracker acts g (CurrentMatch.mk 2 1)
              eq_refl eq_refl) as (g' & Hg' & _ & Hfound).
  exists g'. split; [exact Hg'|].
  destruct (Hfound 0%nat (DrawTracker.mk 1 2 2) eq_refl
              (or_intror (conj eq_refl eq_refl)))
    as (other & [[_ Ho]|[Hn _]] & Hq & Htr).
  - rewrite Hq, Htr, Ho. split; reflexivity.
  - discriminate Hn.
Defined.

(** C3: in every session of an execution, (1) every tracker's [nextToPlay]
    is one of its two stored ids; (2) for every pair [a < b], with [k] the
    number of draws of the pair in the log, no tracker matches the pair when
    [k = 0], and otherwise exactly one does, the tracker [(a, b)] whose
    [nextToPlay] is [a] for even [k] and [b] for odd [k], so that it has
    changed once per draw of the pair; (3) a draw recorded for the current
    pair, with [k] earlier draws of the pair in the log, appends the lower
    team first when [k] is even and the higher team first when [k] is odd,
    and is one more draw of the pair in the log: first-to-play alternates
    from one draw of the pair to the next, starting with the lower team. *)
Theorem first_to_play_alternates acts g :
  gameState (run acts initial) = Some g ->
  (forall dt, dt ∈ draw_trackers g ->
     DrawTracker.nextToPlay dt = DrawTracker.team1 dt \/
     DrawTracker.nextToPlay dt = DrawTracker.team2 dt) /\
  (forall a b, a < b ->
     let k := draws_of a b (match_history g) in
     (k = 0%nat -> forall dt, dt ∈ draw_trackers g -> ~ same_pair a b dt) /\
     (k <> 0%nat ->
      exists i,
        draw_trackers g !! i
          = Some (DrawTracker.mk a b (if Nat.even k then a else b)) /\
        forall j dt,
          draw_trackers g !! j = Some dt -> same_pair a b dt -> j = i)) /\
  (forall cm, current_match g = Some cm ->
     let team1 := CurrentMatch.team1 cm in
     let team2 := CurrentMatch.team2 cm in
     let k := draws_of team1 team2 (match_history g) in
     exists g',
       gameState (recordResult draw (run acts initial)) = Some g' /\
       waiting_queue g'
         = waiting_queue g ++
             (if Nat.even k
              then [Z.min team1 team2; Z.max team1 team2]
              else [Z.max team1 team2; Z.min team1 team2]) /\
       draws_of team1 team2 (match_history g') = S k).
Proof.
  intros Hg. pose proof (reachable_ok _ _ Hg) as Hok. split_and!.
  - intros dt Hdt.
    pose proof (ok_trackers _ Hok) as Htr. rewrite Forall_forall in Htr.
    by destruct (Htr dt Hdt) as (_ & _ & _ & ?).
  - intros a b Hab k. pose proof (ok_tracks _ Hok a b Hab) as Hpair.
    fold k in Hpair.
    destruct (list_find (same_pair a b) (draw_trackers g)) as [[i dt]|] eqn:Hfind.
    + destruct Hpair as [Hk ->]. split; [done|]. intros _. exists i.
      apply list_find_Some in Hfind as Hfound. destruct Hfound as (Hi & _ & _).
      rewrite turn_ordered in Hi by done. split; [done|].
      intros j dt Hj Hdt.
      pose proof (find_tracker g a b j dt Hok Hj Hdt) as Hfind'.
      rewrite Hfind in Hfind'. by injection Hfind'.
    + split; [|done]. intros _ dt Hdt.
      apply list_find_None in Hfind. rewrite Forall_forall in Hfind. auto.
  - intros cm Hcm team1 team2 k.
    destruct (match_teams g cm Hok Hcm) as (Hne & Hr1 & Hr2).
    rewrite (recordResult_session _ _ _ _ Hg Hcm). simpl.
    eexists. split; [done|]. simpl. split.
    + pose proof (handleDrawTeamSelection_sound g _ _ Hok Hne Hr1 Hr2) as [-> _].
      rewrite other_of_turn by done. fold team1 team2 k.
      unfold turn. rewrite Nat.even_succ, <- Nat.negb_even.
      by destruct (Nat.even k).
    + rewrite draws_of_snoc, decide_True, Nat.add_1_r; [done|].
      unfold drawn_between; simpl. tauto.
Qed.

(** Teams 1 and 2 have drawn once and meet again as match (2, 1): the
    higher team is put first this time. *)
Lemma first_to_play_alternates_witness :
  let acts :=
    [TeamInput (Some 3); StartNewGame; GetNextMatch; RecordResult draw;
     GetNextMatch; RecordResult team1_win; GetNextMatch;
     RecordResult team2_win; GetNextMatch] in
  let g :=
    {| total_teams := 3;
       current_match := Some (CurrentMatch.mk 2 1);
       waiting_queue := [3];
       match_history :=
         [Match.mk 1 1 2 (Some draw); Match.mk 2 3 1 (Some team1_win);
          Match.mk 3 3 2 (Some team2_win)];
       match_counter := 3;
       draw_trackers := [DrawTracker.mk 1 2 2] |} in
  gameState (run acts initial) = Some g /\
  exists g',
    gameState (recordResult draw (run acts initial)) = Some g' /\
    waiting_queue g' = [3; 2; 1] /\
    draws_of 2 1 (match_history g') = 2%nat.
Proof.
  intros acts g. split; [reflexivity|].
  destruct (first_to_play_alternates acts g eq_refl) as (_ & _ & Hdraw).
  exact (Hdraw (CurrentMatch.mk 2 1) eq_refl).
Defined.

(** ** Drawing the next match *)

(** C4, as amended: on a session, [getNextMatch] succeeds exactly when the
    queue holds at least two teams, whether or not a match is in progress:
    it removes the first two entries of the queue, in order, makes them
    [current_match] (team1 the old head, team2 the old second), replacing
    any match in progress, keeps the rest of the session and clears the
    error; on a shorter queue it stores the message
    ['Not enough teams in queue to start a match'] and changes nothing
    else. *)
Theorem getNextMatch_by_queue_length st g :
  gameState st = Some g ->
  ((2 <= length (waiting_queue g))%nat ->
   exists team1 team2 remainingQueue,
     waiting_queue g = team1 :: team2 :: remainingQueue /\
     getNextMatch st
     = {| totalTeams := totalTeams st;
          gameState :=
            Some {| total_teams := total_teams g;
                    current_match := Some (CurrentMatch.mk team1 team2);
                    waiting_queue := remainingQueue;
                    match_history := match_history g;
                    match_counter := match_counter g;
                    draw_trackers := draw_trackers g |};
          error := None |}) /\
  ((length (waiting_queue g) < 2)%nat ->
   getNextMatch st
   = {| totalTeams := totalTeams st;
        gameState := Some g;
        error := Some "Not enough teams in queue to start a match"%string |}).
Proof.
  intros Hg. unfold getNextMatch, setError, setGameState. rewrite Hg.
  destruct (waiting_queue g) as [|t1 [|t2 rest]]; simpl; split; intros Hlen;
    try lia; try reflexivity.
  by exists t1, t2, rest.
Qed.

Lemma getNextMatch_by_queue_length_witness :
  let st := run [TeamInput (Some 3); StartNewGame; GetNextMatch] initial in
  let g :=
    {| total_teams := 3;
       current_match := Some (CurrentMatch.mk 1 2);
       waiting_queue := [3];
       match_history := [];
       match_counter := 0;
       draw_trackers := [] |} in
  gameState st = Some g /\
  (length (waiting_queue g) < 2)%nat /\
  getNextMatch st
  = {| totalTeams := Some 3;
       gameState := Some g;
       error := Some "Not enough teams in queue to start a match"%string |}.
Proof.
  intros st g. split; [reflexivity|].
  assert (Hshort : (length (waiting_queue g) < 2)%nat) by (simpl; lia).
  split; [exact Hshort|].
  exact (proj2 (getNextMatch_by_queue_length st g eq_refl) Hshort).
Defined.

(** C4, as stated, fails: with a match in progress and two teams in the
    queue the call is accepted, and the match is replaced. *)
Lemma getNextMatch_accepted_during_match :
  let st := run [StartNewGame; GetNextMatch] initial in
  exists g g',
    gameState st = Some g /\
    current_match g = Some (CurrentMatch.mk 1 2) /\
    gameState (getNextMatch st) = Some g' /\
    current_match g' = Some (CurrentMatch.mk 3 4) /\
    waiting_queue g' = [5; 6; 7; 8] /\
    error (getNextMatch st) = None.
Proof. do 2 eexists. split_and!; reflexivity. Qed.

(** ** Recording a result *)

(** C5: recording [team1_win] puts team1 at the front of the queue and
    team2 at the back, and recording [team2_win] puts team2 at the front
    and team1 at the back; with queue [3, 4] and match (1, 2), [team1_win]
    gives the queue [1, 3, 4, 2]. *)
Theorem winner_to_front_loser_to_back st g cm :
  gameState st = Some g ->
  current_match g = Some cm ->
  waiting_queue <$> gameState (recordResult team1_win st)
    = Some (CurrentMatch.team1 cm :: waiting_queue g ++ [CurrentMatch.team2 cm]) /\
  waiting_queue <$> gameState (recordResult team2_win st)
    = Some (CurrentMatch.team2 cm :: waiting_queue g ++ [CurrentMatch.team1 cm]) /\
  (waiting_queue g = [3; 4] -> cm = CurrentMatch.mk 1 2 ->
   waiting_queue <$> gameState (recordResult team1_win st) = Some [1; 3; 4; 2]).
Proof.
  intros Hg Hcm. rewrite !(recordResult_session _ _ _ _ Hg Hcm). simpl.
  split_and!; [done..|]. by intros -> ->.
Qed.

Lemma winner_to_front_loser_to_back_witness :
  let st := run [TeamInput (Some 4); StartNewGame; GetNextMatch] initial in
  let g :=
    {| total_teams := 4;
       current_match := Some (CurrentMatch.mk 1 2);
       waiting_queue := [3; 4];
       match_history := [];
       match_counter := 0;
       draw_trackers := [] |} in
  gameState st = Some g /\
  current_match g = Some (CurrentMatch.mk 1 2) /\
  waiting_queue <$> gameState (recordResult team1_win st) = Some [1; 3; 4; 2] /\
  waiting_queue <$> gameState (recordResult team2_win st) = Some [2; 3; 4; 1].
Proof.
  intros st g. split; [reflexivity|]. split; [reflexivity|].
  destruct (winner_to_front_loser_to_back st g (CurrentMatch.mk 1 2)
              eq_refl eq_refl) as (H1 & H2 & _).
  split; [exact H1|exact H2].
Defined.

(** C6: in every session of an execution the log is as long as the counter
    says and its match numbers are 1, ..., [match_counter] in order; and
    [recordResult], with a match in progress, appends one record numbered
    [match_counter + 1] that carries team1 and team2 of [current_match] as
    they were and the given result, clears [current_match] and adds one to
    the counter. *)
Theorem history_numbered_by_counter acts g :
  gameState (run acts initial) = Some g ->
  Z.of_nat (length (match_history g)) = match_counter g /\
  Match.match_number <$> match_history g = seqZ 1 (match_counter g) /\
  (forall i m,
     match_history g !! i = Some m -> Match.match_number m = Z.of_nat i + 1) /\
  (forall result cm,
     current_match g = Some cm ->
     exists g',
       gameState (recordResult result (run acts initial)) = Some g' /\
       match_history g'
         = match_history g ++
             [Match.mk (match_counter g + 1) (CurrentMatch.team1 cm)
                (CurrentMatch.team2 cm) (Some result)] /\
       current_match g' = None /\
       match_counter g' = match_counter g + 1).
Proof.
  intros Hg. pose proof (reachable_ok _ _ Hg) as Hok. split_and!.
  - by rewrite (ok_counter _ Hok).
  - apply Hok.
  - intros i m Hi.
    assert ((Match.match_number <$> match_history g) !! i
            = Some (Match.match_number m)) as Hn
      by (by rewrite list_lookup_fmap, Hi).
    rewrite (ok_numbers _ Hok) in Hn. apply lookup_seqZ in Hn. lia.
  - intros result cm Hcm.
    rewrite (recordResult_session _ _ _ _ Hg Hcm). simpl.
    eexists. split_and!; done.
Qed.

Lemma history_numbered_by_counter_witness :
  let acts :=
    [TeamInput (Some 3); StartNewGame; GetNextMatch; RecordResult team2_win;
     GetNextMatch] in
  let g :=
    {| total_teams := 3;
       current_match := Some (CurrentMatch.mk 2 3);
       waiting_queue := [1];
       match_history := [Match.mk 1 1 2 (Some team2_win)];
       match_counter := 1;
       draw_trackers := [] |} in
  gameState (run acts initial) = Some g /\
  exists g',
    gameState (recordResult team2_win (run acts initial)) = Some g' /\
    match_history g'
      = [Match.mk 1 1 2 (Some team2_win); Match.mk 2 2 3 (Some team2_win)] /\
    current_match g' = None /\
    match_counter g' = 2.
Proof.
  intros acts g. split; [reflexivity|].
  destruct (history_numbered_by_counter acts g eq_refl) as (_ & _ & _ & Hrec).
  exact (Hrec team2_win (CurrentMatch.mk 2 3) eq_refl).
Defined.

(** ** Starting a game *)

(** C7: with a team count outside [3, 20], [startNewGame] stores the range
    message as the error and creates no session (the session cell is as it
    was); with a team count [n] in [3, 20] it clears the error and creates
    the session with queue [1, ..., n], an empty log, counter 0, no tracker
    and no current match. *)
Theorem startNewGame_validates st n :
  totalTeams st = Some n ->
  (n < 3 \/ 20 < n ->
   startNewGame st
   = {| totalTeams := Some n;
        gameState := gameState st;
        error := Some "Please enter between 3 and 20 teams"%string |}) /\
  (3 <= n <= 20 ->
   startNewGame st
   = {| totalTeams := Some n;
        gameState :=
          Some {| total_teams := n;
                  current_match := None;
                  waiting_queue := seqZ 1 n;
                  match_history := [];
                  match_counter := 0;
                  draw_trackers := [] |};
        error := None |} /\
   length (seqZ 1 n) = Z.to_nat n /\
   forall i, (i < Z.to_nat n)%nat -> seqZ 1 n !! i = Some (Z.of_nat i + 1)).
Proof.
  intros Hn. unfold startNewGame, setError, setGameState. rewrite Hn. simpl.
  split; intros Hrange.
  - by rewrite range_check_refuses.
  - rewrite range_check_accepts, array_from_succ_seqZ by done.
    split_and!; [done|apply length_seqZ|].
    intros i Hi. rewrite lookup_seqZ_lt by lia. f_equal. lia.
Qed.

Lemma startNewGame_validates_witness :
  let st := setTotalTeams (Some 3) initial in
  totalTeams st = Some 3 /\
  3 <= 3 <= 20 /\
  startNewGame st
  = {| totalTeams := Some 3;
       gameState :=
         Some {| total_teams := 3;
                 current_match := None;
                 waiting_queue := [1; 2; 3];
                 match_history := [];
                 match_counter := 0;
                 draw_trackers := [] |};
       error := None |}.
Proof.
  intros st. split; [reflexivity|].
  assert (Hrange : 3 <= 3 <= 20) by lia. split; [exact Hrange|].
  exact (proj1 (proj2 (startNewGame_validates st 3 eq_refl) Hrange)).
Defined.

(** ** Calls that are refused *)

(** C8, as amended: a call that is refused leaves the session as it was.
    [getNextMatch] on a queue shorter than two stores its message and keeps
    the session; [startNewGame] with a team count outside [3, 20] stores
    its message and keeps the session cell; [recordResult] without a match
    in progress (or without a session) returns at once: the whole state of
    the page, error included, is as before, so nothing is signalled. *)
Theorem refused_calls_keep_the_session st :
  (forall g,
     gameState st = Some g -> (length (waiting_queue g) < 2)%nat ->
     gameState (getNextMatch st) = Some g /\
     error (getNextMatch st)
       = Some "Not enough teams in queue to start a match"%string) /\
  (or3 (totalTeams st) < 3 \/ 20 < or3 (totalTeams st) ->
   gameState (startNewGame st) = gameState st /\
   error (startNewGame st)
     = Some "Please enter between 3 and 20 teams"%string) /\
  (forall result,
     (gameState st = None \/
      exists g, gameState st = Some g /\ current_match g = None) ->
     recordResult result st = st).
Proof.
  split_and!.
  - intros g Hg Hlen. unfold getNextMatch. rewrite Hg.
    destruct (waiting_queue g) as [|t1 [|t2 rest]]; simpl in *; try lia;
      by rewrite Hg.
  - intros Hrange. unfold startNewGame. by rewrite range_check_refuses.
  - intros result [Hg|(g & Hg & Hcm)]; unfold recordResult; rewrite Hg;
      [done|by rewrite Hcm].
Qed.

Lemma refused_calls_keep_the_session_witness :
  let st := run [TeamInput (Some 3); StartNewGame] initial in
  (gameState st = None \/
   exists g, gameState st = Some g /\ current_match g = None) /\
  recordResult team1_win st = st.
Proof.
  intros st.
  assert (Hidle : gameState st = None \/
                  exists g, gameState st = Some g /\ current_match g = None).
  { right. eexists. split; reflexivity. }
  split; [exact Hidle|].
  exact (proj2 (proj2 (refused_calls_keep_the_session st)) team1_win Hidle).
Defined.

(** C8, as stated, fails: [recordResult] without a match in progress
    signals nothing; the error cell, the only way the handler has to report,
    stays empty. *)
Lemma recordResult_without_match_is_silent :
  let st := run [StartNewGame] initial in
  (exists g, gameState st = Some g /\ current_match g = None) /\
  error st = None /\
  recordResult draw st = st /\
  error (recordResult draw st) = None.
Proof. split_and!; [eexists; split; reflexivity|reflexivity..]. Qed.

(** ** The tracker store *)

Lemma handleDrawTeamSelection_keeps g t1 t2 i dt :
  draw_trackers g !! i = Some dt ->
  (handleDrawTeamSelection g t1 t2).2 !! i = Some dt \/
  (handleDrawTeamSelection g t1 t2).2 !! i = Some (toggle dt).
Proof.
  intros Hi. unfold handleDrawTeamSelection.
  destruct (list_find _ _) as [[i0 dt0]|] eqn:Hfind; simpl.
  - apply list_find_Some in Hfind as (Hi0 & _ & _).
    destruct (decide (i0 = i)) as [->|Hne].
    + right. rewrite list_lookup_insert_eq by eauto using lookup_lt_Some.
      congruence.
    + left. by rewrite list_lookup_insert_ne.
  - left. by apply lookup_app_l_Some.
Qed.

(** C9: in every session of an execution every tracker is stored with
    [team1 < team2], both ids being teams of the session; no two trackers
    are for the same unordered pair; and a handler that does not replace or
    discard the session leaves every tracker at its index, as it was or
    with [nextToPlay] toggled: trackers are added or toggled, never
    removed. *)
Theorem trackers_canonical_and_kept acts g :
  gameState (run acts initial) = Some g ->
  (forall dt, dt ∈ draw_trackers g ->
     1 <= DrawTracker.team1 dt /\
     DrawTracker.team1 dt < DrawTracker.team2 dt /\
     DrawTracker.team2 dt <= total_teams g) /\
  (forall i j dt dt',
     draw_trackers g !! i = Some dt -> draw_trackers g !! j = Some dt' ->
     same_pair (DrawTracker.team1 dt) (DrawTracker.team2 dt) dt' -> i = j) /\
  (forall a,
     a <> EndSession ->
     (a = StartNewGame ->
      or3 (totalTeams (run acts initial)) < 3 \/
      20 < or3 (totalTeams (run acts initial))) ->
     exists g',
       gameState (handle a (run acts initial)) = Some g' /\
       total_teams g' = total_teams g /\
       (length (draw_trackers g) <= length (draw_trackers g'))%nat /\
       forall i dt,
         draw_trackers g !! i = Some dt ->
         draw_trackers g' !! i = Some dt \/
         draw_trackers g' !! i = Some (toggle dt)).
Proof.
  intros Hg. pose proof (reachable_ok _ _ Hg) as Hok.
  assert (Hkeep : exists g',
             Some g = Some g' /\ total_teams g' = total_teams g /\
             (length (draw_trackers g) <= length (draw_trackers g'))%nat /\
             forall i dt,
               draw_trackers g !! i = Some dt ->
               draw_trackers g' !! i = Some dt \/
               draw_trackers g' !! i = Some (toggle dt))
    by (exists g; auto).
  split_and!.
  - intros dt Hdt.
    pose proof (ok_trackers _ Hok) as Htr. rewrite Forall_forall in Htr.
    destruct (Htr dt Hdt) as (? & ? & ? & _). done.
  - intros i j dt dt' Hi Hj Hsame.
    pose proof (find_tracker g _ _ j dt' Hok Hj Hsame) as Hfj.
    assert (same_pair (DrawTracker.team1 dt) (DrawTracker.team2 dt) dt) as Hself
      by (by left).
    pose proof (find_tracker g _ _ i dt Hok Hi Hself) as Hfi.
    congruence.
  - intros a Hend Hstart. destruct a; simpl; try done.
    + by rewrite Hg.
    + unfold incrementTeams. case_match; simpl; by rewrite Hg.
    + unfold decrementTeams. case_match; simpl; by rewrite Hg.
    + unfold startNewGame. rewrite range_check_refuses by auto.
      simpl. by rewrite Hg.
    + unfold getNextMatch. rewrite Hg.
      destruct (waiting_queue g) as [|t1 [|t2 rest]]; simpl;
        try (by rewrite Hg).
      eexists. split_and!; [done..|]. simpl. auto.
    + destruct (current_match g) as [cm|] eqn:Hcm.
      * rewrite (recordResult_session _ _ _ _ Hg Hcm). simpl.
        eexists. split_and!; [done..| |]; simpl.
        -- destruct result; simpl; try done.
           unfold handleDrawTeamSelection.
           destruct (list_find _ _) as [[i0 dt0]|]; simpl.
           ++ by rewrite length_insert.
           ++ rewrite length_app. lia.
        -- intros i dt Hi. destruct result; simpl; auto.
           by apply handleDrawTeamSelection_keeps.
      * unfold recordResult. rewrite Hg, Hcm. by rewrite Hg.
Qed.

(** Teams 1 and 2 have drawn once; when they draw again the tracker stays at
    index 0 and is toggled. *)
Lemma trackers_canonical_and_kept_witness :
  let acts :=
    [TeamInput (Some 3); StartNewGame; GetNextMatch; RecordResult draw;
     GetNextMatch; RecordResult team1_win; GetNextMatch;
     RecordResult team2_win; GetNextMatch] in
  let g :=
    {| total_teams := 3;
       current_match := Some (CurrentMatch.mk 2 1);
       waiting_queue := [3];
       match_history :=
         [Match.mk 1 1 2 (Some draw); Match.mk 2 3 1 (Some team1_win);
          Match.mk 3 3 2 (Some team2_win)];
       match_counter := 3;
       draw_trackers := [DrawTracker.mk 1 2 2] |} in
  gameState (run acts initial) = Some g /\
  forall dt, dt ∈ draw_trackers g ->
    1 <= DrawTracker.team1 dt /\
    DrawTracker.team1 dt < DrawTracker.team2 dt /\
    DrawTracker.team2 dt <= 3.
Proof.
  intros acts g. split; [reflexivity|].
  exact (proj1 (trackers_canonical_and_kept acts g eq_refl)).
Defined.

(** On the page itself, where a handler runs only from a control that is
    rendered and enabled, no team is ever lost. *)
Corollary page_keeps_every_team acts g :
  follows rendered initial acts = true ->
  gameState (run acts initial) = Some g ->
  teams_of g ≡ₚ seqZ 1 (total_teams g).
Proof.
  intros Hacts Hg.
  apply (run_complete acts initial); [|apply initial_ok|by intros g0|done].
  revert Hacts. apply follows_weaken, rendered_idle_draw.
Qed.

(** ** The team-count input *)

(** Whatever [parseInt] is, [handleTeamChange] stores an input or does
    nothing. *)
Lemma handleTeamChange_action parseInt value st :
  handleTeamChange parseInt value st = st \/
  exists v, handleTeamChange parseInt value st = handle (TeamInput v) st.
Proof.
  unfold handleTeamChange. destruct (String.eqb value EmptyString).
  - right. by exists None.
  - destruct (parseInt value) as [num|]; [right; by exists (Some num)|by left].
Qed.

(** C10: with an empty team-count input, [startNewGame] takes the count to
    be 3 and creates the 3-team session, without an error; the plus control
    takes the value to be 3 and stores 4, and the minus control takes it to
    be 3, the lower bound, and stores nothing.  Read with 3 for the empty
    input, a count within [3, 20] is left within [3, 20] by both
    controls. *)
Theorem empty_input_counts_as_three st :
  totalTeams st = None ->
  startNewGame st
  = {| totalTeams := None;
       gameState :=
         Some {| total_teams := 3;
                 current_match := None;
                 waiting_queue := [1; 2; 3];
                 match_history := [];
                 match_counter := 0;
                 draw_trackers := [] |};
       error := None |} /\
  incrementTeams st = setTotalTeams (Some 4) st /\
  decrementTeams st = st /\
  (forall st',
     3 <= or3 (totalTeams st') <= 20 ->
     3 <= or3 (totalTeams (incrementTeams st')) <= 20 /\
     3 <= or3 (totalTeams (decrementTeams st')) <= 20).
Proof.
  intros Hempty.
  unfold startNewGame, incrementTeams, decrementTeams, setError, setGameState.
  rewrite Hempty. simpl. split_and!; [done..|].
  intros st' Hrange. split.
  - destruct (Z.ltb_spec (or3 (totalTeams st')) 20); simpl; lia.
  - destruct (Z.gtb_spec (or3 (totalTeams st')) 3); simpl; lia.
Qed.

Lemma empty_input_counts_as_three_witness :
  let st := setTotalTeams None initial in
  totalTeams st = None /\
  total_teams <$> gameState (startNewGame st) = Some 3 /\
  error (startNewGame st) = None /\
  totalTeams (incrementTeams st) = Some 4 /\
  totalTeams (decrementTeams st) = None.
Proof.
  intros st. split; [reflexivity|].
  destruct (empty_input_counts_as_three st eq_refl) as (Hs & Hi & Hd & _).
  rewrite Hs, Hi, Hd. repeat split; reflexivity.
Defined.

(** * Further properties of the page *)

(** ** Sessions have between 3 and 20 teams, and a clean log *)

Lemma run_keeps (I : Home -> Prop) :
  (forall a st, I st -> I (handle a st)) ->
  forall acts st, I st -> I (run acts st).
Proof.
  intros Hstep acts. induction acts as [|a acts IH]; intros st Hst; [done|].
  apply IH, Hstep, Hst.
Qed.

Lemma run_invariant (G : action -> Home -> bool) (I : Home -> Prop) :
  (forall a st, I st -> G a st = true -> I (handle a st)) ->
  forall acts st, I st -> follows G st acts = true -> I (run acts st).
Proof.
  intros Hstep acts. induction acts as [|a acts IH]; intros st Hst; simpl; [done|].
  intros [? ?]%andb_true_iff. apply IH; auto.
Qed.

Lemma getNextMatch_cases st g :
  gameState st = Some g ->
  (exists t1 t2 rest,
     waiting_queue g = t1 :: t2 :: rest /\
     getNextMatch st
     = setError None
         (setGameState
            (Some {| total_teams := total_teams g;
                     current_match := Some (CurrentMatch.mk t1 t2);
                     waiting_queue := rest;
                     match_history := match_history g;
                     match_counter := match_counter g;
                     draw_trackers := draw_trackers g |}) st)) \/
  ((length (waiting_queue g) < 2)%nat /\
   getNextMatch st
   = setError (Some "Not enough teams in queue to start a match"%string) st).
Proof.
  intros Hg. unfold getNextMatch. rewrite Hg.
  destruct (waiting_queue g) as [|t1 [|t2 rest]]; simpl;
    [right; split; [lia|done]..|left; by exists t1, t2, rest].
Qed.

Lemma recordResult_idle result st :
  gameState st = None \/
  (exists g, gameState st = Some g /\ current_match g = None) ->
  recordResult result st = st.
Proof.
  intros [Hg|(g & Hg & Hcm)]; unfold recordResult; rewrite Hg;
    [done|by rewrite Hcm].
Qed.

Lemma handle_ranged a st : home_ranged st -> home_ranged (handle a st).
Proof.
  unfold home_ranged. intros Hst g'. destruct a; simpl; try apply Hst.
  - unfold incrementTeams. case_match; apply Hst.
  - unfold decrementTeams. case_match; apply Hst.
  - unfold startNewGame.
    destruct ((or3 (totalTeams st) <? 3) || (or3 (totalTeams st) >? 20))
      eqn:Hcheck; simpl; [apply Hst|].
    intros [= <-]. simpl. apply orb_false_iff in Hcheck. lia.
  - destruct (gameState st) as [g|] eqn:Hg;
      [|unfold getNextMatch; rewrite Hg; by rewrite Hg].
    destruct (getNextMatch_cases st g Hg)
      as [(t1 & t2 & rest & _ & ->)|[_ ->]]; simpl.
    + intros [= <-]. simpl. by apply Hst.
    + rewrite Hg. intros [= <-]. by apply Hst.
  - destruct (gameState st) as [g|] eqn:Hg;
      [|rewrite recordResult_idle by auto; by rewrite Hg].
    destruct (current_match g) as [cm|] eqn:Hcm;
      [|rewrite recordResult_idle by eauto; rewrite Hg; intros [= <-]; by apply Hst].
    rewrite (recordResult_session _ _ _ _ Hg Hcm). simpl.
    intros [= <-]. simpl. by apply Hst.
  - done.
Qed.

Lemma handle_logged a st :
  home_ok st -> home_logged st -> home_logged (handle a st).
Proof.
  unfold home_logged. intros Hok Hst g'. destruct a; simpl; try apply Hst.
  - unfold incrementTeams. case_match; apply Hst.
  - unfold decrementTeams. case_match; apply Hst.
  - unfold startNewGame. case_match; simpl; [apply Hst|].
    intros [= <-]. simpl. constructor.
  - destruct (gameState st) as [g|] eqn:Hg;
      [|unfold getNextMatch; rewrite Hg; by rewrite Hg].
    destruct (getNextMatch_cases st g Hg)
      as [(t1 & t2 & rest & _ & ->)|[_ ->]]; simpl.
    + intros [= <-]. simpl. by apply Hst.
    + rewrite Hg. intros [= <-]. by apply Hst.
  - destruct (gameState st) as [g|] eqn:Hg;
      [|rewrite recordResult_idle by auto; by rewrite Hg].
    destruct (current_match g) as [cm|] eqn:Hcm;
      [|rewrite recordResult_idle by eauto; rewrite Hg; intros [= <-]; by apply Hst].
    rewrite (recordResult_session _ _ _ _ Hg Hcm). simpl.
    intros [= <-]. simpl. apply Forall_app. split; [by apply Hst|].
    apply Forall_singleton. unfold record_ok; simpl.
    destruct (match_teams g cm (Hok g Hg) Hcm) as (? & ? & ?). done.
  - done.
Qed.

Lemma run_ranged acts : home_ranged (run acts initial).
Proof. apply run_keeps; [apply handle_ranged|]. intros g. done. Qed.

(** X1: every session of an execution has between 3 and 20 teams. *)
Theorem sessions_have_3_to_20_teams acts g :
  gameState (run acts initial) = Some g -> 3 <= total_teams g <= 20.
Proof. apply run_ranged. Qed.

Lemma sessions_have_3_to_20_teams_witness :
  let acts := [TeamInput (Some 20); StartNewGame; GetNextMatch] in
  (exists g, gameState (run acts initial) = Some g /\ total_teams g = 20) /\
  3 <= 20 <= 20.
Proof.
  intros acts. split; [eexists; split; reflexivity|].
  exact (sessions_have_3_to_20_teams acts _ eq_refl).
Defined.

(** X2: every record of the log of a session of an execution has a result
    and two distinct teams of the session. *)
Theorem logged_matches_are_well_formed acts g m :
  gameState (run acts initial) = Some g ->
  m ∈ match_history g ->
  Match.team1 m <> Match.team2 m /\
  1 <= Match.team1 m <= total_teams g /\
  1 <= Match.team2 m <= total_teams g /\
  exists result, Match.result m = Some result.
Proof.
  intros Hg Hm.
  assert (home_ok (run acts initial) /\ home_logged (run acts initial)) as [_ Hlog].
  { apply (run_keeps (fun st => home_ok st /\ home_logged st)).
    - intros a st [? ?]. split; [by apply handle_ok|by apply handle_logged].
    - split; [apply initial_ok|]. intros g0. done. }
  specialize (Hlog g Hg). rewrite Forall_forall in Hlog.
  destruct (Hlog m Hm) as (? & ? & ? & Hres).
  split_and!; try lia; try done. destruct (Match.result m); [eauto|done].
Qed.

Lemma logged_matches_are_well_formed_witness :
  let acts :=
    [TeamInput (Some 3); StartNewGame; GetNextMatch; RecordResult draw] in
  let m := Match.mk 1 1 2 (Some draw) in
  (exists g, gameState (run acts initial) = Some g /\ m ∈ match_history g) /\
  Match.team1 m <> Match.team2 m.
Proof.
  intros acts m.
  assert (Hin : m ∈ [m]) by apply list_elem_of_singleton, eq_refl.
  split; [eexists; split; [reflexivity|exact Hin]|].
  exact (proj1 (logged_matches_are_well_formed acts _ m eq_refl Hin)).
Defined.

(** ** The queue on the page *)

Lemma page_invariant acts :
  follows idle_draw initial acts = true ->
  home_ok (run acts initial) /\
  home_complete (run acts initial) /\
  home_ranged (run acts initial).
Proof.
  apply (run_invariant idle_draw
           (fun st => home_ok st /\ home_complete st /\ home_ranged st)).
  - intros a st (? & ? & ?) Ha.
    split_and!; [by apply handle_ok|by apply handle_complete|by apply handle_ranged].
  - split_and!; intros g; done.
Qed.

Lemma length_teams_of g :
  teams_of g ≡ₚ seqZ 1 (total_teams g) ->
  Z.of_nat (length (on_pitch g)) + Z.of_nat (length (waiting_queue g))
  = Z.max 0 (total_teams g).
Proof.
  intros Hperm%Permutation_length. unfold teams_of in Hperm.
  rewrite length_app, length_seqZ in Hperm. lia.
Qed.

Lemma page_queue_length acts g :
  follows idle_draw initial acts = true ->
  gameState (run acts initial) = Some g ->
  Z.of_nat (length (waiting_queue g))
  = match current_match g with
    | Some _ => total_teams g - 2
    | None => total_teams g
    end.
Proof.
  intros Hacts Hg. destruct (page_invariant acts Hacts) as (_ & Hc & Hr).
  pose proof (length_teams_of g (Hc g Hg)) as Hlen. specialize (Hr g Hg).
  unfold on_pitch in Hlen. destruct (current_match g); simpl in Hlen; lia.
Qed.

(** X3: when [getNextMatch] is not called during a match, the queue of a
    session holds all the teams while no match is on, and all but two
    during a match. *)
Theorem queue_length_on_page acts g :
  follows idle_draw initial acts = true ->
  gameState (run acts initial) = Some g ->
  Z.of_nat (length (waiting_queue g))
  = match current_match g with
    | Some _ => total_teams g - 2
    | None => total_teams g
    end.
Proof. apply page_queue_length. Qed.

Lemma queue_length_on_page_witness :
  let acts := [TeamInput (Some 5); StartNewGame; GetNextMatch] in
  follows idle_draw initial acts = true /\
  exists g,
    gameState (run acts initial) = Some g /\
    Z.of_nat (length (waiting_queue g)) = 5 - 2.
Proof.
  intros acts. split; [reflexivity|]. eexists. split; [reflexivity|].
  exact (queue_length_on_page acts _ eq_refl eq_refl).
Defined.

(** X4: when [getNextMatch] is not called during a match, it is never
    refused between matches: the [Get Next Match] button is enabled, and the
    call puts a match on and leaves no error. *)
Theorem next_match_is_always_available acts g :
  follows idle_draw initial acts = true ->
  gameState (run acts initial) = Some g ->
  current_match g = None ->
  rendered GetNextMatch (run acts initial) = true /\
  error (getNextMatch (run acts initial)) = None /\
  exists g' cm,
    gameState (getNextMatch (run acts initial)) = Some g' /\
    current_match g' = Some cm /\
    [CurrentMatch.team1 cm; CurrentMatch.team2 cm] = take 2 (waiting_queue g).
Proof.
  intros Hacts Hg Hcm.
  pose proof (page_queue_length acts g Hacts Hg) as Hlen.
  pose proof (run_ranged acts g Hg) as Hr.
  rewrite Hcm in Hlen. split.
  - unfold rendered. rewrite Hg, Hcm. apply negb_true_iff, Z.ltb_ge. lia.
  - destruct (getNextMatch_cases _ g Hg)
      as [(t1 & t2 & rest & Hq & ->)|[? _]]; [|lia].
    split; [done|]. simpl. do 2 eexists. split_and!; [done..|].
    by rewrite Hq.
Qed.

Lemma next_match_is_always_available_witness :
  let acts :=
    [TeamInput (Some 3); StartNewGame; GetNextMatch; RecordResult draw] in
  follows idle_draw initial acts = true /\
  (exists g, gameState (run acts initial) = Some g /\ current_match g = None) /\
  rendered GetNextMatch (run acts initial) = true /\
  error (getNextMatch (run acts initial)) = None.
Proof.
  intros acts. split; [reflexivity|].
  split; [eexists; split; reflexivity|].
  destruct (next_match_is_always_available acts _ eq_refl eq_refl eq_refl)
    as (Hr & He & _).
  split; [exact Hr|exact He].
Defined.

(** X5: on the page, where a handler runs only from a control that is
    rendered and enabled, an error is shown only on the start form, and it
    is the range message: with a session the error is empty, and the
    message of [getNextMatch] is never shown. *)
Theorem errors_only_on_the_start_form acts :
  follows rendered initial acts = true ->
  error (run acts initial) = None \/
  (gameState (run acts initial) = None /\
   error (run acts initial)
     = Some "Please enter between 3 and 20 teams"%string).
Proof.
  apply (run_invariant rendered
           (fun st =>
              error st = None \/
              (gameState st = None /\
               error st = Some "Please enter between 3 and 20 teams"%string)));
    [|by left].
  intros a st Hst Ha. unfold rendered in Ha.
  destruct (gameState st) as [g|] eqn:Hg.
  - destruct Hst as [Herr|[? _]]; [|done].
    destruct a; try done; simpl.
    + destruct (current_match g) eqn:Hcm; [done|].
      destruct (getNextMatch_cases st g Hg)
        as [(t1 & t2 & rest & _ & ->)|[Hlen _]]; [by left|].
      apply negb_true_iff, Z.ltb_ge in Ha. lia.
    + destruct (current_match g) as [cm|] eqn:Hcm; [|done].
      rewrite (recordResult_session _ _ _ _ Hg Hcm). by left.
    + by left.
  - destruct a; try done; simpl.
    + by rewrite Hg.
    + unfold incrementTeams.
      destruct (or3 (totalTeams st) <? 20); simpl; by rewrite ?Hg.
    + unfold decrementTeams.
      destruct (or3 (totalTeams st) >? 3); simpl; by rewrite ?Hg.
    + unfold startNewGame.
      destruct ((or3 (totalTeams st) <? 3) || (or3 (totalTeams st) >? 20));
        simpl; [right; by rewrite Hg|by left].
Qed.

Lemma errors_only_on_the_start_form_witness :
  let acts := [TeamInput (Some 2); StartNewGame] in
  follows rendered initial acts = true /\
  gameState (run acts initial) = None /\
  error (run acts initial)
    = Some "Please enter between 3 and 20 teams"%string.
Proof.
  intros acts. split; [reflexivity|].
  destruct (errors_only_on_the_start_form acts eq_refl) as [Hnone|Hform].
  - discriminate Hnone.
  - exact Hform.
Defined.

(** ** From one match to the next *)

Lemma draw_requeue g cm :
  session_ok g -> current_match g = Some cm ->
  let team1 := CurrentMatch.team1 cm in
  let team2 := CurrentMatch.team2 cm in
  let k := draws_of team1 team2 (match_history g) in
  (requeue draw g cm).1
  = waiting_queue g ++ [turn k team1 team2; turn (S k) team1 team2].
Proof.
  intros Hok Hcm team1 team2 k.
  destruct (match_teams g cm Hok Hcm) as (Hne & Hr1 & Hr2). simpl.
  pose proof (handleDrawTeamSelection_sound g _ _ Hok Hne Hr1 Hr2) as [-> _].
  by rewrite other_of_turn.
Qed.

(** X6: when [getNextMatch] is not called during a match, a team waits
    during every match, and the winner stays on: after [team1_win] the next
    match is team1 against the head of the queue, with team2 sent to the
    back; after [team2_win] it is team2 against the head, with team1 at the
    back. *)
Theorem winner_stays_on acts g cm :
  follows idle_draw initial acts = true ->
  gameState (run acts initial) = Some g ->
  current_match g = Some cm ->
  exists head rest,
    waiting_queue g = head :: rest /\
    (exists g1,
       gameState (getNextMatch (recordResult team1_win (run acts initial)))
         = Some g1 /\
       current_match g1 = Some (CurrentMatch.mk (CurrentMatch.team1 cm) head) /\
       waiting_queue g1 = rest ++ [CurrentMatch.team2 cm]) /\
    (exists g2,
       gameState (getNextMatch (recordResult team2_win (run acts initial)))
         = Some g2 /\
       current_match g2 = Some (CurrentMatch.mk (CurrentMatch.team2 cm) head) /\
       waiting_queue g2 = rest ++ [CurrentMatch.team1 cm]).
Proof.
  intros Hacts Hg Hcm.
  pose proof (page_queue_length acts g Hacts Hg) as Hlen.
  pose proof (run_ranged acts g Hg) as Hr. rewrite Hcm in Hlen.
  destruct (waiting_queue g) as [|head rest] eqn:Hq; [simpl in Hlen; lia|].
  exists head, rest. split; [done|].
  rewrite !(recordResult_session _ _ _ _ Hg Hcm). unfold getNextMatch. simpl.
  rewrite Hq. simpl. split; eexists; split_and!; done.
Qed.

Lemma winner_stays_on_witness :
  let acts := [TeamInput (Some 4); StartNewGame; GetNextMatch] in
  follows idle_draw initial acts = true /\
  exists g1,
    gameState (getNextMatch (recordResult team1_win (run acts initial)))
      = Some g1 /\
    current_match g1 = Some (CurrentMatch.mk 1 3) /\
    waiting_queue g1 = [4; 2].
Proof.
  intros acts. split; [reflexivity|].
  destruct (winner_stays_on acts _ (CurrentMatch.mk 1 2) eq_refl eq_refl eq_refl)
    as (head & rest & Hq & Hwin & _).
  injection Hq as <- <-. exact Hwin.
Defined.

(** X7: when [getNextMatch] is not called during a match, after a draw in
    a session of at least four teams the next match is between the two
    teams at the head of the queue, neither of which drew, and the teams
    that drew are at the back, the one whose turn it is first; in a session
    of three teams the next match is the waiting team against the team
    whose turn it is, and the other team that drew waits. *)
Theorem after_a_draw acts g cm :
  follows idle_draw initial acts = true ->
  gameState (run acts initial) = Some g ->
  current_match g = Some cm ->
  let team1 := CurrentMatch.team1 cm in
  let team2 := CurrentMatch.team2 cm in
  let k := draws_of team1 team2 (match_history g) in
  exists g',
    gameState (getNextMatch (recordResult draw (run acts initial))) = Some g' /\
    (4 <= total_teams g ->
     exists h1 h2 rest,
       waiting_queue g = h1 :: h2 :: rest /\
       current_match g' = Some (CurrentMatch.mk h1 h2) /\
       (team1 ∉ [h1; h2]) /\ (team2 ∉ [h1; h2]) /\
       waiting_queue g' = rest ++ [turn k team1 team2; turn (S k) team1 team2]) /\
    (total_teams g = 3 ->
     exists h,
       waiting_queue g = [h] /\
       current_match g' = Some (CurrentMatch.mk h (turn k team1 team2)) /\
       waiting_queue g' = [turn (S k) team1 team2]).
Proof.
  intros Hacts Hg Hcm team1 team2 k.
  destruct (page_invariant acts Hacts) as (Hok & _ & _). specialize (Hok g Hg).
  pose proof (page_queue_length acts g Hacts Hg) as Hlen.
  pose proof (run_ranged acts g Hg) as Hr. rewrite Hcm in Hlen.
  pose proof (ok_nodup _ Hok) as Hnd. unfold teams_of, on_pitch in Hnd.
  rewrite Hcm in Hnd. fold team1 team2 in Hnd.
  rewrite (recordResult_session _ _ _ _ Hg Hcm). unfold getNextMatch.
  cbn [gameState setError setGameState waiting_queue].
  rewrite (draw_requeue g cm Hok Hcm). fold team1 team2 k.
  destruct (waiting_queue g) as [|h1 [|h2 rest]] eqn:Hq; simpl in Hlen;
    [lia| |]; simpl.
  - eexists. split; [done|]. split; [lia|]. intros _. by exists h1.
  - eexists. split; [done|]. split; [|lia]. intros _.
    exists h1, h2, rest. split_and!; try done.
    + intros Hin. apply NoDup_cons in Hnd as [Hnot _]. apply Hnot.
      rewrite !elem_of_cons, elem_of_nil in Hin. rewrite !elem_of_cons. tauto.
    + intros Hin. apply NoDup_cons in Hnd as [_ [Hnot _]%NoDup_cons].
      apply Hnot. rewrite !elem_of_cons, elem_of_nil in Hin.
      rewrite !elem_of_cons. tauto.
Qed.

Lemma after_a_draw_witness :
  let acts := [TeamInput (Some 3); StartNewGame; GetNextMatch] in
  follows idle_draw initial acts = true /\
  exists g',
    gameState (getNextMatch (recordResult draw (run acts initial))) = Some g' /\
    current_match g' = Some (CurrentMatch.mk 3 1) /\
    waiting_queue g' = [2].
Proof.
  intros acts. split; [reflexivity|].
  destruct (after_a_draw acts _ (CurrentMatch.mk 1 2) eq_refl eq_refl eq_refl)
    as (g' & Hg' & _ & Hthree).
  destruct (Hthree eq_refl) as (h & Hq & Hcm & Hq').
  injection Hq as <-. exists g'. split; [exact Hg'|]. split; [exact Hcm|exact Hq'].
Defined.

(** ** No team waits for ever *)

(** X8: with at least two teams in the queue, the team at index [p] of the
    queue (from 0) is on the pitch in one of the next [p] matches, and in
    the next one when [p] is 0, whatever the results of the matches: no
    result keeps a waiting team off the pitch. *)
Theorem every_team_plays_soon results st g p t :
  gameState st = Some g ->
  (2 <= length (waiting_queue g))%nat ->
  waiting_queue g !! p = Some t ->
  (1 <= length results)%nat ->
  (p <= length results)%nat ->
  plays_within t results st = true.
Proof.
  revert st g p.
  induction results as [|result rest IH]; intros st g p Hg Hlen Hp Hone Hmany;
    [simpl in Hone; lia|].
  destruct (getNextMatch_cases st g Hg)
    as [(t1 & t2 & q & Hq & Hnext)|[? _]]; [|lia].
  simpl. rewrite Hnext. cbn [gameState setError setGameState].
  rewrite Hq in Hp.
  destruct p as [|[|p]]; simpl in Hp.
  - injection Hp as ->. unfold on_pitch; simpl.
    rewrite bool_decide_true; [done|]. apply elem_of_cons. by left.
  - injection Hp as ->. unfold on_pitch; simpl.
    rewrite bool_decide_true; [done|]. rewrite !elem_of_cons. tauto.
  - apply orb_true_iff. right.
    set (g1 := {| total_teams := total_teams g;
                  current_match := Some (CurrentMatch.mk t1 t2);
                  waiting_queue := q;
                  match_history := match_history g;
                  match_counter := match_counter g;
                  draw_trackers := draw_trackers g |}).
    set (st1 := setError None (setGameState (Some g1) st)).
    pose proof (lookup_lt_Some _ _ _ Hp) as Hpq.
    assert (Hsession := recordResult_session result st1 g1
                          (CurrentMatch.mk t1 t2) eq_refl eq_refl).
    simpl in Hmany.
    destruct result.
    + eapply (IH _ _ (S p)); [by rewrite Hsession| | |lia..]; simpl.
      * rewrite length_app. simpl. lia.
      * by apply lookup_app_l_Some.
    + eapply (IH _ _ (S p)); [by rewrite Hsession| | |lia..]; simpl.
      * rewrite length_app. simpl. lia.
      * by apply lookup_app_l_Some.
    + eapply (IH _ _ p); [by rewrite Hsession| | |lia..]; simpl.
      * rewrite length_app. simpl. lia.
      * by apply lookup_app_l_Some.
Qed.

Lemma every_team_plays_soon_witness :
  let st := run [TeamInput (Some 4); StartNewGame] initial in
  (exists g,
     gameState st = Some g /\
     (2 <= length (waiting_queue g))%nat /\
     waiting_queue g !! 3%nat = Some 4) /\
  plays_within 4 [team1_win; team1_win; draw] st = true.
Proof.
  intros st.
  assert (Hlen : (2 <= 4)%nat) by lia.
  split; [eexists; split; [reflexivity|split; [exact Hlen|reflexivity]]|].
  assert (Hone : (1 <= 3)%nat) by lia.
  assert (Hmany : (3 <= 3)%nat) by lia.
  exact (every_team_plays_soon [team1_win; team1_win; draw] st _ 3 4
           eq_refl Hlen eq_refl Hone Hmany).
Defined.

(** ** The log and the tracker store only grow *)

Lemma handle_appends a st g :
  a <> StartNewGame -> a <> EndSession ->
  gameState st = Some g ->
  exists g',
    gameState (handle a st) = Some g' /\
    total_teams g' = total_teams g /\
    match_history g `prefix_of` match_history g' /\
    match_counter g' - match_counter g
    = Z.of_nat (length (match_history g')) - Z.of_nat (length (match_history g)).
Proof.
  intros Hstart Hend Hg.
  assert (Hsame : exists g',
             Some g = Some g' /\ total_teams g' = total_teams g /\
             match_history g `prefix_of` match_history g' /\
             match_counter g' - match_counter g
             = Z.of_nat (length (match_history g'))
               - Z.of_nat (length (match_history g)))
    by (exists g; split_and!; [done..|lia]).
  destruct a; try done; simpl.
  - by rewrite Hg.
  - unfold incrementTeams. destruct (_ <? _); simpl; by rewrite Hg.
  - unfold decrementTeams. destruct (_ >? _); simpl; by rewrite Hg.
  - destruct (getNextMatch_cases st g Hg)
      as [(t1 & t2 & rest & _ & ->)|[_ ->]]; simpl; [|by rewrite Hg].
    eexists. split_and!; [done..|]. simpl. lia.
  - destruct (current_match g) as [cm|] eqn:Hcm;
      [|rewrite recordResult_idle by eauto; by rewrite Hg].
    rewrite (recordResult_session _ _ _ _ Hg Hcm). simpl.
    eexists. split_and!; [done..| |]; simpl.
    + by apply prefix_app_r.
    + rewrite length_app. simpl. lia.
Qed.

(** X9: as long as the session is neither replaced nor ended, the log is
    append-only and the counter counts the appended records: after any
    further handler calls the old log is a prefix of the new one, the
    counter has grown by the number of new records, and the number of teams
    is the same. *)
Theorem log_is_append_only more st g :
  gameState st = Some g ->
  Forall (fun a => a <> StartNewGame /\ a <> EndSession) more ->
  exists g',
    gameState (run more st) = Some g' /\
    total_teams g' = total_teams g /\
    match_history g `prefix_of` match_history g' /\
    match_counter g' - match_counter g
    = Z.of_nat (length (match_history g')) - Z.of_nat (length (match_history g)).
Proof.
  revert st g. induction more as [|a more IH]; intros st g Hg Hmore.
  - exists g. split_and!; [done..|lia].
  - apply Forall_cons in Hmore as [[Hstart Hend] Hmore].
    destruct (handle_appends a st g Hstart Hend Hg)
      as (g1 & Hg1 & Ht1 & Hp1 & Hc1).
    destruct (IH _ g1 Hg1 Hmore) as (g' & Hg' & Ht' & Hp' & Hc').
    exists g'. split_and!; [done|congruence|by etrans|lia].
Qed.

Lemma log_is_append_only_witness :
  let st := run [TeamInput (Some 3); StartNewGame; GetNextMatch] initial in
  let more := [RecordResult draw; GetNextMatch; GetNextMatch; RecordResult team1_win] in
  (exists g, gameState st = Some g /\ match_counter g = 0) /\
  Forall (fun a => a <> StartNewGame /\ a <> EndSession) more /\
  exists g',
    gameState (run more st) = Some g' /\
    match_counter g' - 0 = Z.of_nat (length (match_history g')) - 0.
Proof.
  intros st more. split; [eexists; split; reflexivity|].
  assert (Hmore : Forall (fun a => a <> StartNewGame /\ a <> EndSession) more).
  { repeat constructor; discriminate. }
  split; [exact Hmore|].
  destruct (log_is_append_only more st _ eq_refl Hmore)
    as (g' & Hg' & _ & _ & Hc).
  exists g'. split; [exact Hg'|exact Hc].
Defined.

Lemma length_pairs_below n :
  (2 * length (pairs_below n) = n * (n - 1))%nat.
Proof.
  induction n as [|n IH]; [done|]. simpl pairs_below.
  rewrite length_app, length_fmap, length_seqZ, Nat2Z.id. nia.
Qed.

Lemma elem_of_pairs_below n a b :
  1 <= a -> a < b -> b <= Z.of_nat n -> (a, b) ∈ pairs_below n.
Proof.
  intros Ha Hab. induction n as [|n IH]; intros Hb; [lia|].
  simpl pairs_below. apply elem_of_app.
  destruct (decide (b <= Z.of_nat n)) as [Hle|Hgt]; [left; auto|right].
  apply list_elem_of_fmap. exists a. split; [f_equal; lia|].
  apply elem_of_seqZ. lia.
Qed.

(** X10: in every session of an execution the tracker store holds at most
    one tracker for each of the [n (n - 1) / 2] pairs of the [n] teams. *)
Theorem trackers_are_bounded acts g :
  gameState (run acts initial) = Some g ->
  2 * Z.of_nat (length (draw_trackers g))
  <= total_teams g * (total_teams g - 1).
Proof.
  intros Hg. pose proof (reachable_ok _ _ Hg) as Hok.
  pose proof (run_ranged acts g Hg) as Hr.
  assert (Hle : (length (key <$> draw_trackers g)
                 <= length (pairs_below (Z.to_nat (total_teams g))))%nat).
  { apply submseteq_length, NoDup_submseteq; [apply Hok|].
    intros [a b] (dt & Hk & Hdt)%list_elem_of_fmap.
    pose proof (ok_trackers _ Hok) as Htr. rewrite Forall_forall in Htr.
    destruct (Htr dt Hdt) as (? & ? & ? & _).
    unfold key in Hk. injection Hk as -> ->.
    apply elem_of_pairs_below; lia. }
  rewrite length_fmap in Hle.
  pose proof (length_pairs_below (Z.to_nat (total_teams g))) as Hpairs.
  nia.
Qed.

Lemma trackers_are_bounded_witness :
  let acts :=
    [TeamInput (Some 3); StartNewGame; GetNextMatch; RecordResult draw] in
  (exists g,
     gameState (run acts initial) = Some g /\
     length (draw_trackers g) = 1%nat /\ total_teams g = 3) /\
  2 * Z.of_nat 1 <= 3 * (3 - 1).
Proof.
  intros acts. split; [eexists; split_and!; reflexivity|].
  exact (trackers_are_bounded acts _ eq_refl).
Defined.

(** ** The plus and minus controls *)





Lemma run_app acts1 acts2 st : run (acts1 ++ acts2) st = run acts2 (run acts1 st).
Proof. unfold run. apply foldl_app. Qed.

(** X13: from the mounted page, whose count is 8, any number of clicks on
    plus and minus leaves a count that [startNewGame] accepts: without
    typing, [Start Game] always creates the session of the count shown. *)
Theorem buttons_only_start_succeeds clicks :
  Forall (fun a => a = IncrementTeams \/ a = DecrementTeams) clicks ->
  exists n g,
    totalTeams (run clicks initial) = Some n /\
    3 <= n <= 20 /\
    gameState (run (clicks ++ [StartNewGame]) initial) = Some g /\
    total_teams g = n /\
    waiting_queue g = seqZ 1 n /\
    error (run (clicks ++ [StartNewGame]) initial) = None.
Proof.
  intros Hclicks.
  assert (exists n, totalTeams (run clicks initial) = Some n /\ 3 <= n <= 20)
    as (n & Hn & Hrange).
  { assert (exists n, totalTeams initial = Some n /\ 3 <= n <= 20) as Hinit
      by (exists 8; split; [done|lia]).
    revert Hinit. generalize initial.
    induction Hclicks as [|a clicks [-> | ->] _ IH]; intros st (n & Hn & Hr);
      [by exists n|apply IH..]; simpl.
    - unfold incrementTeams. rewrite Hn; simpl.
      destruct (Z.ltb_spec n 20); simpl; eexists; split; try done; lia.
    - unfold decrementTeams. rewrite Hn; simpl.
      destruct (Z.gtb_spec n 3); simpl; eexists; split; try done; lia. }
  rewrite run_app. simpl. unfold startNewGame. rewrite Hn. simpl.
  rewrite range_check_accepts by done. simpl.
  exists n. eexists. split_and!; try done; try lia. simpl.
  apply array_from_succ_seqZ.
Qed.

Lemma buttons_only_start_succeeds_witness :
  let clicks := [IncrementTeams; IncrementTeams; DecrementTeams] in
  Forall (fun a => a = IncrementTeams \/ a = DecrementTeams) clicks /\
  exists n g,
    totalTeams (run clicks initial) = Some n /\
    3 <= n <= 20 /\
    gameState (run (clicks ++ [StartNewGame]) initial) = Some g /\
    total_teams g = n /\
    waiting_queue g = seqZ 1 n /\
    error (run (clicks ++ [StartNewGame]) initial) = None.
Proof.
  intros clicks.
  assert (Hclicks : Forall (fun a => a = IncrementTeams \/ a = DecrementTeams) clicks).
  { repeat (apply Forall_cons; split; [(by left) || (by right)|]). done. }
  split; [exact Hclicks|]. exact (buttons_only_start_succeeds clicks Hclicks).
Defined.

(** ** The view of the queue and of the log *)

(** X14: with at least two teams in the queue, the badges of the queue that
    carry the marker are the two teams that [getNextMatch] puts on the
    pitch, in that order, and the badges without it are the queue that it
    leaves. *)
Theorem marked_teams_play_next st g :
  gameState st = Some g ->
  (2 <= length (waiting_queue g))%nat ->
  exists g',
    gameState (getNextMatch st) = Some g' /\
    queue_badges g
    = ((fun t => (t, true)) <$> on_pitch g') ++
      ((fun t => (t, false)) <$> waiting_queue g').
Proof.
  intros Hg Hlen.
  destruct (getNextMatch_cases st g Hg)
    as [(t1 & t2 & rest & Hq & ->)|[? _]]; [|lia].
  eexists. split; [done|]. unfold queue_badges, on_pitch. rewrite Hq. simpl.
  do 2 f_equal. apply (imap_const (fun t => (t, false))).
Qed.

Lemma marked_teams_play_next_witness :
  let st := run [TeamInput (Some 3); StartNewGame] initial in
  (exists g,
     gameState st = Some g /\ (2 <= length (waiting_queue g))%nat /\
     queue_badges g = [(1, true); (2, true); (3, false)]) /\
  exists g',
    gameState (getNextMatch st) = Some g' /\
    [(1, true); (2, true); (3, false)]
    = ((fun t => (t, true)) <$> on_pitch g') ++
      ((fun t => (t, false)) <$> waiting_queue g').
Proof.
  intros st.
  assert (Hlen : (2 <= 3)%nat) by lia.
  split; [eexists; split_and!; [reflexivity|exact Hlen|reflexivity]|].
  exact (marked_teams_play_next st _ eq_refl Hlen).
Defined.

Lemma run_logged acts : home_logged (run acts initial).
Proof.
  assert (home_ok (run acts initial) /\ home_logged (run acts initial)) as [_ ?];
    [|done].
  apply (run_keeps (fun st => home_ok st /\ home_logged st)).
  - intros a st [? ?]. split; [by apply handle_ok|by apply handle_logged].
  - split; [apply initial_ok|]. intros g0. done.
Qed.

(** X15: in every session of an execution the rows of the match history
    card are the matches of the log, newest first: their keys are
    [match_counter, ..., 1], all distinct, and every row shows the teams of
    its match, ['Draw'] with no team in bold for a draw, ['T1 Win'] with
    team1 in bold when team1 won and ['T2 Win'] with team2 in bold when
    team2 won. *)
Theorem history_rows_show_the_log acts g :
  gameState (run acts initial) = Some g ->
  HistoryRow.key <$> history_rows g = reverse (seqZ 1 (match_counter g)) /\
  NoDup (HistoryRow.key <$> history_rows g) /\
  forall row, row ∈ history_rows g ->
    exists m result,
      m ∈ match_history g /\
      Match.result m = Some result /\
      HistoryRow.key row = Match.match_number m /\
      HistoryRow.team1 row = Match.team1 m /\
      HistoryRow.team2 row = Match.team2 m /\
      (HistoryRow.label row, HistoryRow.team1_bold row, HistoryRow.team2_bold row)
      = match result with
        | draw => ("Draw"%string, false, false)
        | team1_win => ("T1 Win"%string, true, false)
        | team2_win => ("T2 Win"%string, false, true)
        end.
Proof.
  intros Hg. pose proof (reachable_ok _ _ Hg) as Hok.
  assert (Hkeys : HistoryRow.key <$> history_rows g
                  = reverse (seqZ 1 (match_counter g))).
  { unfold history_rows. rewrite <- list_fmap_compose, <- (ok_numbers _ Hok).
    by rewrite fmap_reverse. }
  split_and!; [done| |].
  - rewrite Hkeys, reverse_Permutation. apply NoDup_seqZ.
  - intros row (m & -> & Hm)%list_elem_of_fmap.
    rewrite elem_of_reverse in Hm.
    pose proof (run_logged acts g Hg) as Hlog. rewrite Forall_forall in Hlog.
    destruct (Hlog m Hm) as (_ & _ & _ & Hres).
    destruct (Match.result m) as [result|] eqn:Hresult; [|done].
    exists m, result. simpl. rewrite Hresult.
    split_and!; try done. by destruct result.
Qed.

Lemma history_rows_show_the_log_witness :
  let acts :=
    [TeamInput (Some 3); StartNewGame; GetNextMatch; RecordResult draw;
     GetNextMatch; RecordResult team2_win] in
  (exists g,
     gameState (run acts initial) = Some g /\
     history_rows g
     = [HistoryRow.mk 2 3 false 1 true "T2 Win"; HistoryRow.mk 1 1 false 2 false "Draw"]) /\
  [2; 1] = reverse (seqZ 1 2).
Proof.
  intros acts. split; [eexists; split; reflexivity|].
  exact (proj1 (history_rows_show_the_log acts _ eq_refl)).
Defined.

(** ** The background slideshow *)

Lemma filter_none {A} (P : A -> Prop) `{!forall x, Decision (P x)} (l : list A) :
  Forall (fun x => ~ P x) l -> filter P l = [].
Proof.
  induction 1 as [|x l Hx _ IH]; [done|]. by rewrite filter_cons_False.
Qed.

Lemma opaque_indices_one n i :
  0 <= i < n -> BackgroundSlideshow.opaque_indices n i = [i].
Proof.
  intros Hi. unfold BackgroundSlideshow.opaque_indices.
  replace n with (i + (1 + (n - i - 1))) by lia.
  rewrite !seqZ_app, !filter_app by lia.
  rewrite (filter_none _ (seqZ 0 i)), (filter_none _ (seqZ (0 + i + 1) _)).
  - rewrite seqZ_cons, seqZ_nil by lia. simpl.
    rewrite filter_cons_True by lia. rewrite app_nil_r. f_equal. 
  - apply Forall_seqZ. lia.
  - apply Forall_seqZ. lia.
Qed.

(** X16: with [n > 0] images, after [k] ticks of the timer the slideshow
    shows image [k mod n]: the index is always one of the list, the images
    are shown in order and the show starts again after the last one; and
    exactly that one image is rendered opaque. *)
Theorem slideshow_cycles n k :
  0 < n ->
  BackgroundSlideshow.currentIndex_after n k = Z.of_nat k mod n /\
  0 <= BackgroundSlideshow.currentIndex_after n k < n /\
  BackgroundSlideshow.opaque_indices n (BackgroundSlideshow.currentIndex_after n k)
  = [Z.of_nat k mod n].
Proof.
  intros Hn.
  assert (Hk : BackgroundSlideshow.currentIndex_after n k = Z.of_nat k mod n).
  { unfold BackgroundSlideshow.currentIndex_after.
    destruct (Z.eqb_spec n 0); [lia|].
    induction k as [|k IH]; [by rewrite Z.mod_0_l by lia|].
    rewrite Nat.iter_succ, IH. unfold BackgroundSlideshow.next_index.
    pose proof (Z.mod_pos_bound (Z.of_nat k) n Hn).
    rewrite Z.rem_mod_nonneg by lia.
    rewrite Zplus_mod_idemp_l. f_equal. lia. }
  pose proof (Z.mod_pos_bound (Z.of_nat k) n Hn).
  rewrite Hk. split_and!; [done|lia..|]. by apply opaque_indices_one.
Qed.

Lemma slideshow_cycles_witness :
  0 < 4 /\
  BackgroundSlideshow.currentIndex_after 4 6 = 2 /\
  BackgroundSlideshow.opaque_indices 4 (BackgroundSlideshow.currentIndex_after 4 6)
  = [2].
Proof.
  assert (Hn : 0 < 4) by lia. split; [exact Hn|].
  destruct (slideshow_cycles 4 6 Hn) as (Hk & _ & Ho).
  split; [exact Hk|exact Ho].
Defined.

(** ** Teams are never duplicated *)

(** X17: in every session of an execution, also one in which
    [getNextMatch] was called during a match, no team is twice among the
    match and the queue, every id there is a team of the session, and the
    two teams of a match are distinct. *)
Theorem teams_are_never_duplicated acts g :
  gameState (run acts initial) = Some g ->
  NoDup (teams_of g) /\
  (forall t, t ∈ teams_of g -> 1 <= t <= total_teams g) /\
  (forall cm, current_match g = Some cm ->
     CurrentMatch.team1 cm <> CurrentMatch.team2 cm).
Proof.
  intros Hg. pose proof (reachable_ok _ _ Hg) as Hok. split_and!.
  - apply Hok.
  - apply Forall_forall, Hok.
  - intros cm Hcm. by destruct (match_teams g cm Hok Hcm).
Qed.

Lemma teams_are_never_duplicated_witness :
  let acts := [StartNewGame; GetNextMatch; GetNextMatch] in
  (exists g,
     gameState (run acts initial) = Some g /\
     teams_of g = [3; 4; 5; 6; 7; 8]) /\
  NoDup [3; 4; 5; 6; 7; 8].
Proof.
  intros acts. split; [eexists; split; reflexivity|].
  exact (proj1 (teams_are_never_duplicated acts _ eq_refl)).
Defined.
